(** * rpi-fan-util: the fan configuration codec, the device protocol of
      [main] and the adaptive governor loop of [src/main.c], embedded in Rocq.

    Machine integers are [Z] with their wrap-around written out, the
    [union fan_config] is its byte with the two bit-fields as masks, system
    calls are recorded as a trace of events, and what the operating system
    answers to them is a record of inputs. *)

From Stdlib Require Import ZArith List String Ascii Bool Lia Sorted.
Import ListNotations.
Local Open Scope string_scope.
Local Open Scope list_scope.
Local Open Scope Z_scope.

(** ** Machine integers *)

Module CInt.

Definition INT_MIN : Z := -2147483648.
Definition INT_MAX : Z := 2147483647.

(** Conversion to [uint8_t], [uint32_t] and [uint64_t]: reduction modulo
    2^8, 2^32 and 2^64. *)
Definition to_uint8 (z : Z) : Z := z mod 256.
Definition to_uint32 (z : Z) : Z := z mod 4294967296.
Definition to_uint64 (z : Z) : Z := z mod 18446744073709551616.

(** A value brought back into the range of the 32-bit [int], two's
    complement. *)
Definition to_int (z : Z) : Z := (z + 2147483648) mod 4294967296 - 2147483648.

Definition in_int (z : Z) : bool := (INT_MIN <=? z) && (z <=? INT_MAX).

(** [int * int] is undefined in C when the product does not fit in [int];
    [int_mul_overflows] says when that is. *)
Definition int_mul_overflows (a b : Z) : bool := negb (in_int (a * b)).

(** [int / int] truncates towards zero. *)
Definition int_div (a b : Z) : Z := Z.quot a b.

(** [uint64_t * uint64_t] and [uint64_t / uint64_t]. *)
Definition u64_mul (a b : Z) : Z := to_uint64 (a * b).
Definition u64_div (a b : Z) : Z := a / b.

End CInt.
Import CInt.

(** ** The C library's text conversions *)

Definition isspace (c : ascii) : bool :=
  let n := Z.of_nat (nat_of_ascii c) in
  (n =? 32) || ((9 <=? n) && (n <=? 13)).

Definition digit_of (c : ascii) : option Z :=
  let n := Z.of_nat (nat_of_ascii c) in
  if (48 <=? n) && (n <=? 57) then Some (n - 48) else None.

Fixpoint skip_space (s : string) : string :=
  match s with
  | String c rest => if isspace c then skip_space rest else s
  | EmptyString => s
  end.

(** The value of the longest prefix of decimal digits, on top of [acc]. *)
Fixpoint digits_value (acc : Z) (s : string) : Z :=
  match s with
  | String c rest =>
      match digit_of c with
      | Some d => digits_value (10 * acc + d) rest
      | None => acc
      end
  | EmptyString => acc
  end.

(** The sign and the magnitude that [atoi] and [strtoull] read: white space,
    an optional sign, decimal digits; anything else ends the number, and a
    text without digits is worth 0. *)
Definition signed_magnitude (s : string) : bool * Z :=
  match skip_space s with
  | String "-"%char rest => (true, digits_value 0 rest)
  | String "+"%char rest => (false, digits_value 0 rest)
  | rest => (false, digits_value 0 rest)
  end.

(** [atoi]: the result is an [int]; a value that does not fit is brought
    back into range by [to_int]. *)
Definition atoi (s : string) : Z :=
  let (neg, m) := signed_magnitude s in
  to_int (if neg then - m else m).

(** [strtoull(s, NULL, 10)]: a magnitude beyond [ULLONG_MAX] saturates, a
    minus sign negates modulo 2^64. *)
Definition strtoull (s : string) : Z :=
  let (neg, m) := signed_magnitude s in
  if m >? 18446744073709551615 then 18446744073709551615
  else to_uint64 (if neg then - m else m).

Definition digit_char (d : Z) : ascii := ascii_of_nat (Z.to_nat (48 + d)).

(** The decimal text of [v] for [0 <= v <= 999], as [%d] prints it. *)
Definition decimal (v : Z) : string :=
  if v <? 10 then String (digit_char v) EmptyString
  else if v <? 100 then
    String (digit_char (v / 10)) (String (digit_char (v mod 10)) EmptyString)
  else
    String (digit_char (v / 100))
      (String (digit_char ((v / 10) mod 10))
         (String (digit_char (v mod 10)) EmptyString)).

(** [snprintf(buf, size, "%d", v)]: at most [size - 1] characters and the
    terminator. *)
Definition snprintf_d (size : nat) (v : Z) : string :=
  substring 0 (size - 1) (decimal v).

(** [strncpy(dst, src, n); dst[n] = 0]: the first [n] characters of [src]. *)
Definition strncpy (n : nat) (src : string) : string := substring 0 n src.

(** ** Constants of main.c *)

Definition KBUF_SIZE : nat := 4.
Definition TZ_BUF_SIZE : nat := 6.
Definition PWM_PERIOD : Z := 50000000.

(** [PWM_GPIOS]: the case labels 12, 13, 18 and 19. *)
Definition PWM_GPIOS (g : Z) : bool :=
  (g =? 12) || (g =? 13) || (g =? 18) || (g =? 19).

(** ** union fan_config

    One byte, seen either whole ([bytes]) or as two bit-fields:
    [gpio_num] in the low five bits, [pwm_mode] in the three bits above. *)

Record fan_config : Set := mk_config { bytes : Z }.

Definition gpio_num (c : fan_config) : Z := Z.land (bytes c) 31.
Definition pwm_mode (c : fan_config) : Z := Z.land (Z.shiftr (bytes c) 5) 7.

(** Assignment to a bit-field keeps the low bits of the value that fit and
    leaves the other field as it was. *)
Definition set_gpio_num (c : fan_config) (v : Z) : fan_config :=
  mk_config (Z.lor (Z.land (bytes c) 224) (Z.land v 31)).
Definition set_pwm_mode (c : fan_config) (v : Z) : fan_config :=
  mk_config (Z.lor (Z.land (bytes c) 31) (Z.shiftl (Z.land v 7) 5)).

(** [c.bytes = (uint8_t) v]. *)
Definition set_bytes (v : Z) : fan_config := mk_config (to_uint8 v).

(** The pair of fields, as the codec's caller sees a configuration. *)
Record FanConfig : Set := mk_fields { fc_gpio : Z; fc_mode : Z }.

(** Decoding reads the two bit-fields of the byte. *)
Definition decode (b : Z) : FanConfig :=
  let c := set_bytes b in
  mk_fields (gpio_num c) (pwm_mode c).

(** Encoding assigns both bit-fields of a [union fan_config], whatever it
    held before ([scratch]), and reads the byte. *)
Definition encode_into (scratch : fan_config) (f : FanConfig) : Z :=
  bytes (set_pwm_mode (set_gpio_num scratch (fc_gpio f)) (fc_mode f)).

Definition encode (f : FanConfig) : Z := encode_into (mk_config 0) f.

(** The body of [if (gpio_value != NULL)]: the range check, then the two
    assignments to [config]. [None] is the rejected request. *)
Definition apply_gpio (old_config config : fan_config) (gpio_v : Z)
  : option fan_config :=
  if (gpio_v <? 2) || (gpio_v >? 30) then None
  else Some (set_gpio_num (set_pwm_mode config (pwm_mode old_config))
                          (to_uint8 gpio_v)).

(** The body of [if (pwm_value != NULL)]. *)
Definition apply_mode (old_config config : fan_config) (pwm_v : Z)
  : option fan_config :=
  if (pwm_v <? 0) || (pwm_v >? 7) then None
  else Some (set_pwm_mode (set_gpio_num config (gpio_num old_config))
                          (to_uint8 pwm_v)).

(** [uint64_t duty_c = (atoi(duty_cycle) * PWM_PERIOD) / 100]: an [int]
    product and an [int] quotient, converted to [uint64_t]. The period is a
    multiple of 100 and C leaves the overflow of the product undefined, so
    the program as the compile script builds it (gcc -O3) makes one [int]
    multiplication by 500000: that is the arithmetic taken here. It is the
    source's expression wherever the source's product fits in [int]. *)
Definition duty_of_percent (p : Z) : Z := to_uint64 (to_int (p * 500000)).

(** [duty_c < 0 || duty_c > PWM_PERIOD], on the unsigned [duty_c]. *)
Definition duty_rejected (duty_c : Z) : bool :=
  (duty_c <? 0) || (duty_c >? PWM_PERIOD).

(** ** The process and its surroundings *)

Inductive message : Set :=
| MsgMissingArgument | MsgUnknownOption
| MsgOpenFailed | MsgReadFailed
| MsgGpioRange | MsgPwmRange | MsgDutyRange
| MsgIoctlFailed | MsgNoValue | MsgBadValue
| MsgForkFailed | MsgNotPwmPin | MsgWriteFailed
| MsgTzOpenFailed | MsgTzReadFailed.

(** What the process does to the outside, in order. [EvOpen] to [EvClose]
    are the calls on /dev/rpifan; the [EvTz...] ones are the calls on the
    thermal zone file. Debug output on stdout is not recorded. *)
Inductive event : Set :=
| EvUsage
| EvStderr (m : message)
| EvOpen
| EvRead
| EvWrite (buf : string)
| EvIoctl (duty : Z)
| EvClose
| EvFork
| EvStdoutPid (pid : Z)
| EvSetsid
| EvTzOpen
| EvSetName
| EvTzRead
| EvTzClose
| EvSleep (usec : Z).

(** How a process ends: it returns or calls [exit] with a status, it divides
    by zero, or it is still looping when the recorded sensor reads end. *)
Inductive outcome : Set :=
| Exit (status : Z)
| DivByZero
| StillRunning.

(** What the operating system answers. [fork_pid] is the value [fork]
    returns in the process that is followed; [config_junk] is what the
    uninitialised [config] happens to hold; [tz_reads] are the successive
    reads of the thermal zone, [None] for a failed [lseek] or [read]. *)
Record world : Type := mk_world {
  open_ok : bool;
  dev_read : option string;
  ioctl_ok : bool;
  write_ok : bool;
  fork_pid : Z;
  config_junk : Z;
  tz_open_ok : bool;
  tz_reads : list (option string)
}.

(** What [getopt] yields, one item per call ([OptQuestion] is its '?', with
    the offending option character), and the operands left at
    [argv[optind]]. *)
Inductive getopt_item : Set :=
| OptD | OptH
| OptA (optarg : string) | OptP (optarg : string)
| OptG (optarg : string) | OptC (optarg : string)
| OptQuestion (optopt : ascii).

Record cmdline : Set := mk_cmdline {
  options : list getopt_item;
  operands : list string
}.

Record flags : Set := mk_flags {
  debug : bool;
  adapt_ms : Z;
  pwm_value : option string;
  gpio_value : option string;
  duty_cycle : option string
}.

Definition init_flags : flags := mk_flags false 0 None None None.

(** A computation of the process: the events so far, and either a value to
    go on with or the end of the process. *)
Definition proc (A : Type) : Type := (list event * (A + outcome))%type.

Definition ret {A : Type} (a : A) : proc A := ([], inl a).
Definition emit (e : event) : proc unit := ([e], inl tt).
Definition halt {A : Type} (o : outcome) : proc A := ([], inr o).

Definition bind {A B : Type} (m : proc A) (k : A -> proc B) : proc B :=
  match m with
  | (t, inl a) => let (t', r) := k a in (t ++ t', r)
  | (t, inr o) => (t, inr o)
  end.

Notation "x <- m ;; k" := (bind m (fun x => k))
  (at level 61, m at next level, right associativity).
Notation "m ;; k" := (bind m (fun _ => k))
  (at level 61, right associativity).

(** The trace and the outcome of a whole process; falling off the end of
    [main] is [return 0]. *)
Definition run (m : proc unit) : list event * outcome :=
  (fst m, match snd m with inl _ => Exit 0 | inr o => o end).

(** [close(fd); return -1;] after a diagnostic. *)
Definition fail_closed {A : Type} (m : message) : proc A :=
  emit (EvStderr m) ;; emit EvClose ;; halt (Exit (-1)).

(** ** main: the option loop *)

Definition is_arg_option (c : ascii) : bool :=
  (c =? "p")%char || (c =? "a")%char || (c =? "c")%char || (c =? "g")%char.

Fixpoint parse_options (items : list getopt_item) (f : flags) : proc flags :=
  match items with
  | [] => ret f
  | OptD :: rest =>
      parse_options rest
        (mk_flags true (adapt_ms f) (pwm_value f) (gpio_value f) (duty_cycle f))
  | OptH :: _ => emit EvUsage ;; halt (Exit 0)
  | OptA optarg :: rest =>
      parse_options rest
        (mk_flags (debug f) (strtoull optarg) (pwm_value f) (gpio_value f)
                  (duty_cycle f))
  | OptP optarg :: rest =>
      parse_options rest
        (mk_flags (debug f) (adapt_ms f) (Some optarg) (gpio_value f)
                  (duty_cycle f))
  | OptG optarg :: rest =>
      parse_options rest
        (mk_flags (debug f) (adapt_ms f) (pwm_value f) (Some optarg)
                  (duty_cycle f))
  | OptC optarg :: rest =>
      parse_options rest
        (mk_flags (debug f) (adapt_ms f) (pwm_value f) (gpio_value f)
                  (Some optarg))
  | OptQuestion optopt :: _ =>
      if is_arg_option optopt
      then emit (EvStderr MsgMissingArgument) ;; halt (Exit (-1))
      else emit (EvStderr MsgUnknownOption) ;; halt (Exit (-1))
  end.

(** ** adaptive: the governor of the child process *)

(** [if (curr_temp > max_temp) max_temp = curr_temp;] *)
Definition update_max (max_temp curr_temp : Z) : Z :=
  if curr_temp >? max_temp then curr_temp else max_temp.

(** [new_dc = (curr_temp * PWM_PERIOD) / max_temp], in [uint64_t]; [None]
    is the division by zero. *)
Definition new_duty_cycle (curr_temp max_temp : Z) : option Z :=
  if max_temp =? 0 then None
  else Some (u64_div (u64_mul curr_temp PWM_PERIOD) max_temp).

(** [if (ioctl(fd, WR_PWM_VALUE, &v)) fprintf(stderr, ...)]: the failure is
    reported and the process goes on. *)
Definition write_duty (w : world) (v : Z) : proc unit :=
  emit (EvIoctl v) ;;
  if ioctl_ok w then ret tt else emit (EvStderr MsgIoctlFailed).

(** One iteration of the [for(;;)] loop on one recorded read of the sensor;
    [max_temp] is the loop's only state and the iteration returns its new
    value. The test [curr_temp < 0] of the source is on an unsigned value:
    it never holds and its message is never printed. *)
Definition tick (w : world) (timeout max_temp : Z) (read : option string)
  : proc Z :=
  emit EvTzRead ;;
  match read with
  | None =>
      emit (EvStderr MsgTzReadFailed) ;;
      emit EvClose ;; emit EvTzClose ;; halt (Exit (-1))
  | Some tzbuf =>
      let curr_temp := to_uint64 (atoi tzbuf) in
      let max_temp := update_max max_temp curr_temp in
      match new_duty_cycle curr_temp max_temp with
      | None => halt DivByZero
      | Some new_dc =>
          write_duty w new_dc ;;
          emit (EvSleep (to_uint32 (u64_mul timeout 1000))) ;;
          ret max_temp
      end
  end.

Fixpoint adaptive_loop (w : world) (timeout max_temp : Z)
    (reads : list (option string)) : proc unit :=
  match reads with
  | [] => halt StillRunning
  | read :: rest =>
      max_temp' <- tick w timeout max_temp read ;;
      adaptive_loop w timeout max_temp' rest
  end.

Definition adaptive (w : world) (timeout : Z) : proc unit :=
  emit EvSetsid ;;
  emit EvTzOpen ;;
  if tz_open_ok w then
    emit EvSetName ;;
    adaptive_loop w timeout 0 (tz_reads w)
  else
    emit (EvStderr MsgTzOpenFailed) ;; emit EvClose ;; halt (Exit (-1)).

(** ** main: the blocks after the option loop *)

Definition configure_gpio (old_config config : fan_config)
    (gpio_value : option string) : proc fan_config :=
  match gpio_value with
  | None => ret config
  | Some optarg =>
      match apply_gpio old_config config (atoi optarg) with
      | None => fail_closed MsgGpioRange
      | Some config' => ret config'
      end
  end.

Definition configure_pwm (old_config config : fan_config)
    (pwm_value : option string) : proc fan_config :=
  match pwm_value with
  | None => ret config
  | Some optarg =>
      match apply_mode old_config config (atoi optarg) with
      | None => fail_closed MsgPwmRange
      | Some config' => ret config'
      end
  end.

(** [if (duty_cycle != NULL)]: the accepted branch ends in [return 0]
    straight after the [ioctl]. *)
Definition manual_duty_cycle (w : world) (duty_cycle : option string)
  : proc unit :=
  match duty_cycle with
  | None => ret tt
  | Some optarg =>
      let duty_c := duty_of_percent (atoi optarg) in
      if duty_rejected duty_c then fail_closed MsgDutyRange
      else write_duty w duty_c ;; halt (Exit 0)
  end.

Definition is_none {A : Type} (o : option A) : bool :=
  match o with None => true | Some _ => false end.

(** [if (gpio_value == NULL && pwm_value == NULL && adapt_ms == 0)]: the
    operand gives the whole byte. *)
Definition configure_both (cl : cmdline) (f : flags) (config : fan_config)
  : proc fan_config :=
  if is_none (gpio_value f) && is_none (pwm_value f) && (adapt_ms f =? 0) then
    match operands cl with
    | [] => fail_closed MsgNoValue
    | arg :: _ =>
        let value := strncpy (KBUF_SIZE - 1) arg in
        let config' := set_bytes (atoi value) in
        if (bytes config' =? 0)
           && match pwm_value f with
              | None => true
              | Some optarg => atoi optarg =? 0
              end
        then fail_closed MsgBadValue
        else ret config'
    end
  else ret config.

(** [if (adapt_ms) switch (old_config.gpio_num) ...]: the [default] label
    prints its diagnostic and leaves the [switch]. *)
Definition start_adaptive (w : world) (f : flags) (old_config : fan_config)
  : proc unit :=
  if adapt_ms f =? 0 then ret tt
  else if PWM_GPIOS (gpio_num old_config) then
    emit EvFork ;;
    let pid := fork_pid w in
    if pid <? 0 then fail_closed MsgForkFailed
    else if pid =? 0 then adaptive w (adapt_ms f) ;; halt (Exit 0)
    else emit (EvStdoutPid pid) ;; emit EvClose ;; halt (Exit 0)
  else emit (EvStderr MsgNotPwmPin).

(** The write of the new byte and the [_exit] label. [snprintf] of a byte
    into four characters does not fail, so its error branch is left out. *)
Definition write_config (w : world) (config : fan_config) : proc unit :=
  emit (EvWrite (snprintf_d KBUF_SIZE (bytes config))) ;;
  (if write_ok w then ret tt else emit (EvStderr MsgWriteFailed)) ;;
  emit EvClose ;;
  halt (Exit 0).

(** What follows the successful [read] of the stored byte. *)
Definition main_configure (w : world) (cl : cmdline) (f : flags)
    (old_value : string) : proc unit :=
  let old_config := set_bytes (atoi old_value) in
  let config := set_bytes (config_junk w) in
  config <- configure_gpio old_config config (gpio_value f) ;;
  config <- configure_pwm old_config config (pwm_value f) ;;
  manual_duty_cycle w (duty_cycle f) ;;
  config <- configure_both cl f config ;;
  start_adaptive w f old_config ;;
  write_config w config.

Definition main_proc (w : world) (cl : cmdline) : proc unit :=
  f <- parse_options (options cl) init_flags ;;
  emit EvOpen ;;
  if open_ok w then
    emit EvRead ;;
    match dev_read w with
    | None => emit (EvStderr MsgReadFailed) ;; emit EvClose ;; halt (Exit (-1))
    | Some old_value => main_configure w cl f old_value
    end
  else emit (EvStderr MsgOpenFailed) ;; halt (Exit (-1)).

Definition main (w : world) (cl : cmdline) : list event * outcome :=
  run (main_proc w cl).

(** A world where every call succeeds: the driver holds [stored], the
    followed process is the parent of child [pid], the sensor yields
    [temps]. *)
Definition calm_world (stored : string) (junk pid : Z) (temps : list string)
  : world :=
  mk_world true (Some stored) true true pid junk true (map Some temps).

Definition only (items : list getopt_item) : cmdline := mk_cmdline items [].


(** ** Observations on a run *)

(** The calls on the device node that the range checks are meant to come
    before. *)
Definition is_device_call (e : event) : bool :=
  match e with
  | EvOpen | EvRead | EvWrite _ | EvIoctl _ => true
  | _ => false
  end.

Definition range_message (m : message) : bool :=
  match m with
  | MsgGpioRange | MsgPwmRange | MsgDutyRange => true
  | _ => false
  end.

(** Every range diagnostic of the trace comes before any call on the
    device node. *)
Definition reported_before_device_io (tr : list event) : Prop :=
  forall pre m post,
    tr = pre ++ EvStderr m :: post ->
    range_message m = true ->
    Forall (fun e => is_device_call e = false) pre.

(** The duty cycles sent through the control call, in order. *)
Definition ioctl_values (tr : list event) : list Z :=
  flat_map (fun e => match e with EvIoctl v => [v] | _ => [] end) tr.

(** The buffers written to the device node, in order. *)
Definition config_writes (tr : list event) : list string :=
  flat_map (fun e => match e with EvWrite buf => [buf] | _ => [] end) tr.

Definition is_close (e : event) : bool :=
  match e with EvClose => true | _ => false end.

Definition is_fork (e : event) : bool :=
  match e with EvFork => true | _ => false end.

(** The value of [max_temp] at the end of each completed iteration. *)
Fixpoint ceilings (w : world) (timeout max_temp : Z)
    (reads : list (option string)) : list Z :=
  match reads with
  | [] => []
  | read :: rest =>
      match snd (tick w timeout max_temp read) with
      | inl max_temp' => max_temp' :: ceilings w timeout max_temp' rest
      | inr _ => []
      end
  end.

(** The running maximum of a sequence of samples, from [m]. *)
Fixpoint running_max (m : Z) (temps : list Z) : list Z :=
  match temps with
  | [] => []
  | t :: rest => Z.max m t :: running_max (Z.max m t) rest
  end.

(** The three range checks of [main] on the arguments, and the diagnostic
    of the first one that fails, in the order [main] makes them. *)
Definition gpio_check_fails (f : flags) : bool :=
  match gpio_value f with
  | Some optarg => (atoi optarg <? 2) || (atoi optarg >? 30)
  | None => false
  end.

Definition mode_check_fails (f : flags) : bool :=
  match pwm_value f with
  | Some optarg => (atoi optarg <? 0) || (atoi optarg >? 7)
  | None => false
  end.

Definition duty_check_fails (f : flags) : bool :=
  match duty_cycle f with
  | Some optarg => duty_rejected (duty_of_percent (atoi optarg))
  | None => false
  end.

Definition first_range_failure (f : flags) : option message :=
  if gpio_check_fails f then Some MsgGpioRange
  else if mode_check_fails f then Some MsgPwmRange
  else if duty_check_fails f then Some MsgDutyRange
  else None.

(** ** The life of the descriptor

    What a trace does to the descriptor of /dev/rpifan: opened once, read
    once right after, then written or controlled, and closed once; any other
    order is refused. *)

Inductive fd_state : Set := FdNone | FdOpened | FdReady | FdClosed.

Definition fd_step (st : fd_state) (e : event) : option fd_state :=
  match e with
  | EvOpen => match st with FdNone => Some FdOpened | _ => None end
  | EvRead => match st with FdOpened => Some FdReady | _ => None end
  | EvWrite _ | EvIoctl _ =>
      match st with FdReady => Some FdReady | _ => None end
  | EvClose => match st with FdReady => Some FdClosed | _ => None end
  | _ => Some st
  end.

Fixpoint fd_run (st : fd_state) (tr : list event) : option fd_state :=
  match tr with
  | [] => Some st
  | e :: rest =>
      match fd_step st e with
      | Some st' => fd_run st' rest
      | None => None
      end
  end.

Definition is_stderr (e : event) : bool :=
  match e with EvStderr _ => true | _ => false end.

(** The reports of failed control calls: a trace without them, and a trace
    with one put right after each control call. *)
Definition is_ioctl_report (e : event) : bool :=
  match e with EvStderr MsgIoctlFailed => true | _ => false end.

Definition without_ioctl_reports (tr : list event) : list event :=
  filter (fun e => negb (is_ioctl_report e)) tr.

Definition with_ioctl_reports (tr : list event) : list event :=
  flat_map (fun e => match e with
                     | EvIoctl v => [EvIoctl v; EvStderr MsgIoctlFailed]
                     | _ => [e]
                     end) tr.

(** An item of the option loop that neither ends it nor fails. *)
Definition is_plain_option (item : getopt_item) : bool :=
  match item with
  | OptH | OptQuestion _ => false
  | _ => true
  end.

(** * Properties *)

(** ** Machine integers and text *)

Lemma to_int_range (z : Z) : INT_MIN <= to_int z <= INT_MAX.
Proof.
  unfold to_int, INT_MIN, INT_MAX.
  pose proof (Z.mod_pos_bound (z + 2147483648) 4294967296 eq_refl). lia.
Qed.

Lemma to_int_small (z : Z) : INT_MIN <= z <= INT_MAX -> to_int z = z.
Proof.
  unfold to_int, INT_MIN, INT_MAX. intros H.
  rewrite Z.mod_small by lia. lia.
Qed.

Lemma atoi_range (s : string) : INT_MIN <= atoi s <= INT_MAX.
Proof.
  unfold atoi. destruct (signed_magnitude s) as [neg m]. apply to_int_range.
Qed.

Lemma to_uint64_small (z : Z) :
  0 <= z < 18446744073709551616 -> to_uint64 z = z.
Proof. intros H. unfold to_uint64. now apply Z.mod_small. Qed.

Lemma to_uint64_range (z : Z) : 0 <= to_uint64 z < 18446744073709551616.
Proof. unfold to_uint64. now apply Z.mod_pos_bound. Qed.

(** ** Bits of the masks of union fan_config *)

Lemma testbit_31 (n : Z) : 0 <= n -> Z.testbit 31 n = (n <? 5).
Proof.
  intros Hn. change 31 with (Z.ones 5).
  now rewrite Z.testbit_ones_nonneg by lia.
Qed.

Lemma testbit_7 (n : Z) : 0 <= n -> Z.testbit 7 n = (n <? 3).
Proof.
  intros Hn. change 7 with (Z.ones 3).
  now rewrite Z.testbit_ones_nonneg by lia.
Qed.

Lemma testbit_224 (n : Z) :
  0 <= n -> Z.testbit 224 n = (5 <=? n) && (n <? 8).
Proof.
  intros Hn. change 224 with (Z.shiftl (Z.ones 3) 5).
  rewrite Z.shiftl_spec by lia.
  destruct (Z.leb_spec 5 n) as [H5 | H5].
  - rewrite Z.testbit_ones_nonneg by lia. cbn [andb].
    destruct (Z.ltb_spec (n - 5) 3), (Z.ltb_spec n 8); lia || reflexivity.
  - now rewrite Z.testbit_neg_r by lia.
Qed.

Lemma testbit_byte_high (b n : Z) :
  0 <= b <= 255 -> 8 <= n -> Z.testbit b n = false.
Proof.
  intros Hb Hn. rewrite <- (Z.mod_small b (2 ^ 8)) by (cbn; lia).
  apply Z.mod_pow2_bits_high. lia.
Qed.

(** Bit [n] of a field shifted into place: nothing below bit 5. *)
Lemma testbit_shifted_mode (v n : Z) :
  0 <= n ->
  Z.testbit (Z.shiftl (Z.land v 7) 5) n
  = (5 <=? n) && (n <? 8) && Z.testbit v (n - 5).
Proof.
  intros Hn. rewrite Z.shiftl_spec by lia.
  destruct (Z.leb_spec 5 n) as [H5 | H5].
  - rewrite Z.land_spec, testbit_7 by lia. cbn [andb].
    destruct (Z.ltb_spec (n - 5) 3), (Z.ltb_spec n 8);
      try lia; now rewrite ?andb_true_r, ?andb_false_r.
  - now rewrite Z.testbit_neg_r by lia.
Qed.

Ltac field_bits n :=
  apply Z.bits_inj'; intros n ?;
  repeat first
    [ rewrite testbit_shifted_mode by lia
    | rewrite Z.lor_spec
    | rewrite Z.land_spec
    | rewrite Z.shiftr_spec by lia
    | rewrite testbit_31 by lia
    | rewrite testbit_7 by lia
    | rewrite testbit_224 by lia ].

Lemma pwm_mode_set_gpio_num (c : fan_config) (v : Z) :
  pwm_mode (set_gpio_num c v) = pwm_mode c.
Proof.
  unfold pwm_mode, set_gpio_num; cbn [bytes].
  field_bits n.
  destruct (Z.ltb_spec n 3); rewrite ?andb_false_r; [| reflexivity].
  destruct (Z.leb_spec 5 (n + 5)), (Z.ltb_spec (n + 5) 8),
    (Z.ltb_spec (n + 5) 5); try lia.
  now rewrite !andb_true_r, andb_false_r, orb_false_r.
Qed.

Lemma gpio_num_set_pwm_mode (c : fan_config) (v : Z) :
  gpio_num (set_pwm_mode c v) = gpio_num c.
Proof.
  unfold gpio_num, set_pwm_mode; cbn [bytes].
  field_bits n.
  destruct (Z.ltb_spec n 5); rewrite ?andb_false_r; [| reflexivity].
  destruct (Z.leb_spec 5 n); try lia.
  now rewrite !andb_true_r, !andb_false_l, orb_false_r.
Qed.

Lemma gpio_num_set_gpio_num (c : fan_config) (v : Z) :
  gpio_num (set_gpio_num c v) = Z.land v 31.
Proof.
  unfold gpio_num, set_gpio_num; cbn [bytes].
  field_bits n.
  destruct (Z.ltb_spec n 5); rewrite ?andb_false_r; [| reflexivity].
  destruct (Z.leb_spec 5 n); try lia.
  now rewrite !andb_true_r, !andb_false_l, andb_false_r, orb_false_l.
Qed.

Lemma pwm_mode_set_pwm_mode (c : fan_config) (v : Z) :
  pwm_mode (set_pwm_mode c v) = Z.land v 7.
Proof.
  unfold pwm_mode, set_pwm_mode; cbn [bytes].
  field_bits n.
  destruct (Z.ltb_spec n 3); rewrite ?andb_false_r; [| reflexivity].
  destruct (Z.leb_spec 5 (n + 5)), (Z.ltb_spec (n + 5) 8),
    (Z.ltb_spec (n + 5) 5); try lia.
  replace (n + 5 - 5) with n by lia.
  now rewrite !andb_true_r, !andb_true_l, andb_false_r, orb_false_l.
Qed.

(** A byte is its two fields put side by side. *)
Lemma byte_of_fields (b : Z) :
  0 <= b <= 255 ->
  Z.lor (Z.land b 31) (Z.shiftl (Z.land (Z.shiftr b 5) 7) 5) = b.
Proof.
  intros Hb. field_bits n.
  destruct (Z.ltb_spec n 5).
  - destruct (Z.leb_spec 5 n); try lia.
    now rewrite andb_true_r, !andb_false_l, orb_false_r.
  - destruct (Z.leb_spec 5 n); try lia.
    rewrite andb_false_r, orb_false_l, andb_true_l.
    destruct (Z.ltb_spec n 8).
    + rewrite Z.shiftr_spec by lia.
      replace (n - 5 + 5) with n by lia. reflexivity.
    + cbn [andb]. symmetry. now apply testbit_byte_high.
Qed.

(** ** The codec *)

Lemma to_uint8_small (b : Z) : 0 <= b <= 255 -> to_uint8 b = b.
Proof. intros H. unfold to_uint8. apply Z.mod_small. lia. Qed.

Lemma land_31_small (g : Z) : 0 <= g <= 31 -> Z.land g 31 = g.
Proof.
  intros H. change 31 with (Z.ones 5).
  rewrite Z.land_ones by lia. apply Z.mod_small. cbn. lia.
Qed.

Lemma land_7_small (m : Z) : 0 <= m <= 7 -> Z.land m 7 = m.
Proof.
  intros H. change 7 with (Z.ones 3).
  rewrite Z.land_ones by lia. apply Z.mod_small. cbn. lia.
Qed.

Lemma pwm_mode_fits (c : fan_config) : Z.land (pwm_mode c) 7 = pwm_mode c.
Proof.
  unfold pwm_mode. now rewrite <- Z.land_assoc, Z.land_diag.
Qed.

Lemma gpio_num_fits (c : fan_config) : Z.land (gpio_num c) 31 = gpio_num c.
Proof.
  unfold gpio_num. now rewrite <- Z.land_assoc, Z.land_diag.
Qed.

(** C7: for every byte [b] of [0..255], decoding takes [gpio_num] from the
    low five bits and [pwm_mode] from the three bits above, and encoding the
    decoded pair gives [b] back, whatever the [union] held before its two
    fields were assigned. *)
Theorem encode_decode_roundtrip (b : Z) (scratch : fan_config) :
  0 <= b <= 255 ->
  decode b = mk_fields (Z.land b 31) (Z.land (Z.shiftr b 5) 7)
  /\ encode (decode b) = b
  /\ encode_into scratch (decode b) = b.
Proof.
  intros Hb.
  assert (Hd : decode b = mk_fields (Z.land b 31) (Z.land (Z.shiftr b 5) 7)).
  { unfold decode, set_bytes, gpio_num, pwm_mode. cbn [bytes].
    now rewrite to_uint8_small. }
  assert (He : forall s, encode_into s (decode b) = b).
  { intros s. rewrite Hd. unfold encode_into. cbn [fc_gpio fc_mode].
    unfold set_pwm_mode at 1. cbn [bytes].
    change (Z.land (bytes (set_gpio_num s (Z.land b 31))) 31)
      with (gpio_num (set_gpio_num s (Z.land b 31))).
    rewrite gpio_num_set_gpio_num.
    rewrite <- !Z.land_assoc, !Z.land_diag.
    now apply byte_of_fields. }
  repeat split; [exact Hd | apply He | apply He].
Qed.

Lemma encode_decode_roundtrip_witness :
  decode 108 = mk_fields (Z.land 108 31) (Z.land (Z.shiftr 108 5) 7)
  /\ encode (decode 108) = 108
  /\ encode_into (mk_config 255) (decode 108) = 108.
Proof. apply (encode_decode_roundtrip 108 (mk_config 255)). lia. Defined.

(** C8: a partial update keeps the field it does not set. For a valid GPIO
    [g] of [2..30] the GPIO block accepts, the result has the mode of the
    configuration read from the driver and GPIO [g]; for a valid mode [m] of
    [0..7] the mode block accepts, the result has the GPIO that was read and
    mode [m]. Neither depends on what [config] held before. *)
Theorem partial_update_keeps_other_field
    (c config : fan_config) (g m : Z) :
  2 <= g <= 30 ->
  0 <= m <= 7 ->
  (exists c', apply_gpio c config g = Some c'
              /\ pwm_mode c' = pwm_mode c /\ gpio_num c' = g)
  /\ (exists c', apply_mode c config m = Some c'
                 /\ gpio_num c' = gpio_num c /\ pwm_mode c' = m).
Proof.
  intros Hg Hm. split.
  - unfold apply_gpio.
    destruct (Z.ltb_spec g 2); [lia |].
    destruct (Z.gtb_spec g 30); [lia |]. cbn [orb].
    eexists. split; [reflexivity |]. split.
    + now rewrite pwm_mode_set_gpio_num, pwm_mode_set_pwm_mode, pwm_mode_fits.
    + rewrite gpio_num_set_gpio_num, to_uint8_small by lia.
      apply land_31_small. lia.
  - unfold apply_mode.
    destruct (Z.ltb_spec m 0); [lia |].
    destruct (Z.gtb_spec m 7); [lia |]. cbn [orb].
    eexists. split; [reflexivity |]. split.
    + now rewrite gpio_num_set_pwm_mode, gpio_num_set_gpio_num, gpio_num_fits.
    + rewrite pwm_mode_set_pwm_mode, to_uint8_small by lia.
      apply land_7_small. lia.
Qed.

Lemma partial_update_keeps_other_field_witness :
  (exists c', apply_gpio (mk_config 44) (mk_config 255) 18 = Some c'
              /\ pwm_mode c' = pwm_mode (mk_config 44) /\ gpio_num c' = 18)
  /\ (exists c', apply_mode (mk_config 44) (mk_config 255) 3 = Some c'
                 /\ gpio_num c' = gpio_num (mk_config 44) /\ pwm_mode c' = 3).
Proof.
  apply (partial_update_keeps_other_field (mk_config 44) (mk_config 255) 18 3);
    lia.
Defined.

(** ** The governor *)

Lemma to_uint64_negative (z : Z) :
  - 18446744073709551616 <= z < 0 ->
  to_uint64 z = z + 18446744073709551616.
Proof.
  intros H. unfold to_uint64.
  replace z with (z + 18446744073709551616 + (-1) * 18446744073709551616)
    at 1 by lia.
  rewrite Z.mod_add by lia. apply Z.mod_small. lia.
Qed.

(** A sensor text parses to the unsigned 0 only when [atoi] gives 0. *)
Lemma curr_temp_zero (s : string) : to_uint64 (atoi s) = 0 <-> atoi s = 0.
Proof.
  pose proof (atoi_range s) as H. unfold INT_MIN, INT_MAX in H.
  destruct (Z_lt_le_dec (atoi s) 0) as [Hneg | Hpos].
  - rewrite to_uint64_negative by lia. lia.
  - rewrite to_uint64_small by lia. reflexivity.
Qed.

Lemma update_max_is_max (m c : Z) : update_max m c = Z.max m c.
Proof. unfold update_max. destruct (Z.gtb_spec c m); lia. Qed.

Lemma new_duty_cycle_none (c m : Z) : new_duty_cycle c m = None <-> m = 0.
Proof.
  unfold new_duty_cycle. destruct (Z.eqb_spec m 0); split;
    congruence || discriminate.
Qed.

(** The product of a non-negative [int] by the period fits in 64 bits. *)
Lemma new_duty_cycle_exact (t m : Z) :
  0 <= t <= INT_MAX -> 0 < m ->
  new_duty_cycle t m = Some (t * PWM_PERIOD / m).
Proof.
  unfold INT_MAX, new_duty_cycle, u64_div, u64_mul, PWM_PERIOD. intros Ht Hm.
  destruct (Z.eqb_spec m 0); [lia |].
  rewrite to_uint64_small by nia. reflexivity.
Qed.

Lemma bind_value {A B : Type} (m : proc A) (k : A -> proc B)
    (t : list event) (a : A) :
  m = (t, inl a) -> bind m k = (t ++ fst (k a), snd (k a)).
Proof. intros ->. unfold bind. now destruct (k a). Qed.

Lemma bind_halt {A B : Type} (m : proc A) (k : A -> proc B)
    (t : list event) (o : outcome) :
  m = (t, inr o) -> bind m k = (t, inr o).
Proof. now intros ->. Qed.

Lemma ioctl_values_app (t1 t2 : list event) :
  ioctl_values (t1 ++ t2) = ioctl_values t1 ++ ioctl_values t2.
Proof. apply flat_map_app. Qed.

Lemma nth_error_map_combine {A B C : Type} (f : A * B -> C) :
  forall (l1 : list A) (l2 : list B) (i : nat) (a : A) (b : B),
    nth_error l1 i = Some a -> nth_error l2 i = Some b ->
    nth_error (map f (combine l1 l2)) i = Some (f (a, b)).
Proof.
  induction l1 as [| x l1 IH]; intros [| y l2] [| i] a b H1 H2;
    cbn in *; try discriminate.
  - congruence.
  - now apply IH.
Qed.

Lemma running_max_lower :
  forall (temps : list Z) (m c : Z), In c (running_max m temps) -> m <= c.
Proof.
  induction temps as [| t temps IH]; intros m c; cbn [running_max In].
  - tauto.
  - intros [<- | H]; [lia |]. apply IH in H. lia.
Qed.

Section Governor.

Variables (w : world) (timeout : Z).

(** An iteration on a text that was read: either the division by zero,
    or the control call, the sleep and the new [max_temp]. *)
Lemma tick_read (max_temp : Z) (tzbuf : string) :
  let curr_temp := to_uint64 (atoi tzbuf) in
  tick w timeout max_temp (Some tzbuf) =
  match new_duty_cycle curr_temp (update_max max_temp curr_temp) with
  | None => ([EvTzRead], inr DivByZero)
  | Some new_dc =>
      (EvTzRead :: EvIoctl new_dc
         :: (if ioctl_ok w then [] else [EvStderr MsgIoctlFailed])
         ++ [EvSleep (to_uint32 (u64_mul timeout 1000))],
       inl (update_max max_temp curr_temp))
  end.
Proof.
  cbv zeta. unfold tick.
  destruct (new_duty_cycle _ _); [| reflexivity].
  unfold write_duty. now destruct (ioctl_ok w).
Qed.

Lemma tick_ceiling (max_temp max_temp' : Z) (read : option string) :
  snd (tick w timeout max_temp read) = inl max_temp' ->
  max_temp <= max_temp'.
Proof.
  destruct read as [tzbuf |]; [| discriminate].
  rewrite tick_read. destruct (new_duty_cycle _ _); [| discriminate].
  cbn [snd]. intros [= <-]. rewrite update_max_is_max. lia.
Qed.

Lemma ceilings_sorted (reads : list (option string)) :
  forall max_temp, Sorted Z.le (max_temp :: ceilings w timeout max_temp reads).
Proof.
  induction reads as [| read rest IH]; intros max_temp; cbn [ceilings].
  - repeat constructor.
  - destruct (snd (tick w timeout max_temp read)) as [m' |] eqn:E.
    + constructor; [apply IH |]. constructor. now apply tick_ceiling in E.
    + repeat constructor.
Qed.

(** With a positive [max_temp] no later iteration divides by zero. *)
Lemma positive_ceiling_never_faults (reads : list (option string)) :
  forall max_temp,
    0 < max_temp ->
    snd (adaptive_loop w timeout max_temp reads) <> inr DivByZero.
Proof.
  induction reads as [| read rest IH]; intros max_temp Hpos;
    cbn [adaptive_loop].
  - discriminate.
  - destruct read as [tzbuf |].
    + pose proof (tick_read max_temp tzbuf) as Ht. cbv zeta in Ht.
      destruct (new_duty_cycle _ _) eqn:E.
      * rewrite (bind_value _ _ _ _ Ht). cbn [snd]. apply IH.
        rewrite update_max_is_max. lia.
      * apply new_duty_cycle_none in E.
        rewrite update_max_is_max in E. lia.
    + discriminate.
Qed.

(** The loop on non-negative samples, once the ceiling is positive or
    about to be. *)
Lemma loop_on_samples (texts : list string) :
  forall m0,
    0 <= m0 < 18446744073709551616 ->
    Forall (fun s => 0 <= atoi s) texts ->
    0 < m0 \/ match texts with s :: _ => 0 < atoi s | [] => True end ->
    snd (adaptive_loop w timeout m0 (map Some texts)) = inr StillRunning
    /\ ceilings w timeout m0 (map Some texts)
       = running_max m0 (map atoi texts)
    /\ ioctl_values (fst (adaptive_loop w timeout m0 (map Some texts)))
       = map (fun tc => fst tc * PWM_PERIOD / snd tc)
             (combine (map atoi texts) (running_max m0 (map atoi texts))).
Proof.
  induction texts as [| s texts IH]; intros m0 Hm0 Hall Hpos.
  - cbn. auto.
  - inversion Hall as [| ? ? Hs Hrest]; subst.
    pose proof (atoi_range s) as Hr. unfold INT_MIN in Hr.
    assert (Hmax : 0 < Z.max m0 (atoi s)) by (destruct Hpos; lia).
    pose proof (tick_read m0 s) as Ht. cbv zeta in Ht.
    rewrite to_uint64_small in Ht by (unfold INT_MAX in Hr; lia).
    rewrite update_max_is_max in Ht.
    rewrite new_duty_cycle_exact in Ht by lia.
    destruct (IH (Z.max m0 (atoi s))) as (IH1 & IH2 & IH3);
      [unfold INT_MAX in Hr; lia | assumption | now left |].
    cbn [map adaptive_loop ceilings running_max combine].
    rewrite (bind_value _ _ _ _ Ht), Ht. cbn [fst snd].
    repeat split.
    + exact IH1.
    + now rewrite IH2.
    + rewrite ioctl_values_app, IH3. now destruct (ioctl_ok w).
Qed.

End Governor.

(** C5 (amended): in a run of the governor on samples that never read
    below zero and start with a positive one, no iteration stops the loop, the ceiling at
    each tick is the running maximum of the samples so far, the duty cycle
    sent at tick [i] is [t_i * PWM_PERIOD / ceiling_i], and it is exactly
    [PWM_PERIOD] at every tick whose sample equals the ceiling. *)
Theorem governor_duty_at_each_tick
    (w : world) (timeout : Z) (s0 : string) (texts : list string) :
  0 < atoi s0 ->
  Forall (fun s => 0 <= atoi s) texts ->
  let reads := map Some (s0 :: texts) in
  let temps := map atoi (s0 :: texts) in
  let cs := ceilings w timeout 0 reads in
  let sent := ioctl_values (fst (adaptive_loop w timeout 0 reads)) in
  snd (adaptive_loop w timeout 0 reads) = inr StillRunning
  /\ cs = running_max 0 temps
  /\ List.length cs = List.length temps
  /\ sent = map (fun tc => fst tc * PWM_PERIOD / snd tc) (combine temps cs)
  /\ (forall i t c,
        nth_error temps i = Some t -> nth_error cs i = Some c ->
        nth_error sent i = Some (t * PWM_PERIOD / c)
        /\ (t = c -> nth_error sent i = Some PWM_PERIOD)).
Proof.
  intros Hs0 Hall reads temps cs sent.
  destruct (loop_on_samples w timeout (s0 :: texts) 0) as (H1 & H2 & H3).
  { lia. }
  { constructor; [lia | assumption]. }
  { now right. }
  fold reads temps in H1, H2, H3. fold cs in H2. fold sent in H3.
  assert (Hlen : forall (l : list Z) m, List.length (running_max m l) = List.length l).
  { induction l as [| x l IH]; intros m; cbn; [reflexivity | now rewrite IH]. }
  assert (Hsent : sent = map (fun tc => fst tc * PWM_PERIOD / snd tc)
                             (combine temps cs)) by now rewrite H2.
  split; [exact H1 |]. split; [exact H2 |].
  split; [rewrite H2; apply Hlen |]. split; [exact Hsent |].
  intros i t c Ht Hc.
  assert (Hi : nth_error sent i = Some (t * PWM_PERIOD / c)).
  { rewrite Hsent.
    now apply (nth_error_map_combine (fun tc => fst tc * PWM_PERIOD / snd tc)). }
  split; [exact Hi |].
  intros ->. rewrite Hi. f_equal.
  rewrite Z.mul_comm. apply Z.div_mul.
  apply nth_error_In in Hc. rewrite H2 in Hc.
  unfold temps in Hc. cbn [map running_max In] in Hc.
  destruct Hc as [<- | Hin]; [lia |].
  apply running_max_lower in Hin. lia.
Qed.

Lemma governor_duty_at_each_tick_witness :
  let w := calm_world "18" 0 0 [] in
  let reads := map Some ["45000"; "47000"; "46000"; "47000"] in
  let temps := map atoi ["45000"; "47000"; "46000"; "47000"] in
  let cs := ceilings w 1000 0 reads in
  let sent := ioctl_values (fst (adaptive_loop w 1000 0 reads)) in
  snd (adaptive_loop w 1000 0 reads) = inr StillRunning
  /\ cs = running_max 0 temps
  /\ List.length cs = List.length temps
  /\ sent = map (fun tc => fst tc * PWM_PERIOD / snd tc) (combine temps cs)
  /\ (forall i t c,
        nth_error temps i = Some t -> nth_error cs i = Some c ->
        nth_error sent i = Some (t * PWM_PERIOD / c)
        /\ (t = c -> nth_error sent i = Some PWM_PERIOD)).
Proof.
  apply (governor_duty_at_each_tick (calm_world "18" 0 0 []) 1000
           "45000" ["47000"; "46000"; "47000"]).
  - vm_compute. reflexivity.
  - repeat constructor; vm_compute; discriminate.
Defined.

(** C5, as stated, fails on a reading below zero and on a first reading
    of 0. The reading -1000 becomes the unsigned sample 2^64 - 1000, which is
    the new ceiling: sample and ceiling are equal and the duty cycle sent is
    0, not the period. With a first reading of 0 the ceiling stays 0 and the
    tick ends in the division by zero, with nothing sent. *)
Lemma reading_at_ceiling_sends_zero :
  let w := calm_world "18" 0 0 [] in
  to_uint64 (atoi "-1000") = 18446744073709550616
  /\ ceilings w 1000 0 [Some "-1000"] = [to_uint64 (atoi "-1000")]
  /\ ioctl_values (fst (adaptive_loop w 1000 0 [Some "-1000"])) = [0]
  /\ 0 <> PWM_PERIOD
  /\ adaptive_loop w 1000 0 [Some "0"] = ([EvTzRead], inr DivByZero).
Proof. cbv zeta. repeat split. discriminate. Qed.

(** C6: in a run of the governor the ceiling starts at 0 and never
    decreases from one tick to the next, whatever the sensor reads. *)
Theorem ceiling_never_decreases
    (w : world) (timeout : Z) (reads : list (option string)) :
  Sorted Z.le (0 :: ceilings w timeout 0 reads).
Proof. apply ceilings_sorted. Qed.

Lemma fold_update_max_zero (temps : list Z) :
  forall m,
    0 <= m -> Forall (fun t => 0 <= t) temps ->
    (fold_left update_max temps m = 0 <-> m = 0 /\ Forall (fun t => t = 0) temps).
Proof.
  induction temps as [| t temps IH]; intros m Hm Hall; cbn [fold_left].
  - split; [intros ->; now split | tauto].
  - inversion Hall as [| ? ? Ht Hrest]; subst.
    rewrite IH by (rewrite ?update_max_is_max; assumption || lia).
    rewrite update_max_is_max. split.
    + intros [Hmax Hz]. split; [lia |]. constructor; [lia | assumption].
    + intros [-> Hz]. inversion Hz; subst. split; [reflexivity | assumption].
Qed.

(** C10: the duty computation has no guard on the ceiling: it is a division
    by zero exactly when the ceiling is 0. After any samples, the ceiling is
    0 exactly when every sample so far parsed to 0, and positive exactly when
    some sample so far is positive as the unsigned value the loop compares.
    From the initial ceiling 0 the governor ends in a division by zero,
    before any duty cycle is sent, exactly when its first sample parses to 0,
    which is what a buffer without digits does. *)
Theorem division_by_zero_without_positive_sample
    (w : world) (timeout : Z) (texts : list string)
    (s : string) (rest : list (option string)) :
  let temp_of := fun x => to_uint64 (atoi x) in
  let ceiling := fold_left update_max (map temp_of texts) 0 in
  (forall curr_temp max_temp,
      new_duty_cycle curr_temp max_temp = None <-> max_temp = 0)
  /\ (ceiling = 0 <-> Forall (fun x => atoi x = 0) texts)
  /\ (0 < ceiling <-> Exists (fun x => 0 < temp_of x) texts)
  /\ (adaptive_loop w timeout 0 (Some s :: rest) = ([EvTzRead], inr DivByZero)
      <-> atoi s = 0)
  /\ (snd (adaptive_loop w timeout 0 (Some s :: rest)) = inr DivByZero
      <-> atoi s = 0)
  /\ atoi "n/a" = 0.
Proof.
  intros temp_of ceiling.
  assert (Hnonneg : Forall (fun t => 0 <= t) (map temp_of texts)).
  { apply Forall_forall. intros t Hin. apply in_map_iff in Hin.
    destruct Hin as (x & <- & _). apply to_uint64_range. }
  assert (Hzero : ceiling = 0 <-> Forall (fun x => atoi x = 0) texts).
  { unfold ceiling. rewrite fold_update_max_zero by (assumption || lia).
    rewrite Forall_map. split.
    - intros [_ H]. revert H. apply Forall_impl. intros x. apply curr_temp_zero.
    - intros H. split; [reflexivity |]. revert H. apply Forall_impl.
      intros x. apply curr_temp_zero. }
  assert (Hge : 0 <= ceiling).
  { assert (Hmono : forall l m, m <= fold_left update_max l m).
    { induction l as [| t l IH]; intros m; cbn [fold_left]; [lia |].
      etransitivity; [| apply IH]. rewrite update_max_is_max. lia. }
    apply Hmono. }
  assert (Hfirst : snd (adaptive_loop w timeout 0 (Some s :: rest))
                   = inr DivByZero <-> atoi s = 0).
  { cbn [adaptive_loop].
    pose proof (tick_read w timeout 0 s) as Ht. cbv zeta in Ht.
    destruct (new_duty_cycle _ _) eqn:E.
    - rewrite (bind_value _ _ _ _ Ht). cbn [snd].
      assert (Hpos : 0 < update_max 0 (to_uint64 (atoi s))).
      { pose proof (to_uint64_range (atoi s)).
        destruct (Z.eq_dec (update_max 0 (to_uint64 (atoi s))) 0) as [H0 | H0].
        - apply (new_duty_cycle_none (to_uint64 (atoi s))) in H0. congruence.
        - rewrite update_max_is_max in *. lia. }
      split.
      + intros Hf. now apply positive_ceiling_never_faults in Hf.
      + intros Hz. apply curr_temp_zero in Hz. rewrite Hz in Hpos.
        discriminate Hpos.
    - rewrite (bind_halt _ _ _ _ Ht). cbn [snd].
      apply new_duty_cycle_none in E. rewrite update_max_is_max in E.
      pose proof (to_uint64_range (atoi s)).
      split; [intros _ | reflexivity]. apply curr_temp_zero. lia. }
  refine (conj _ (conj _ (conj _ (conj _ (conj _ _))))).
  - apply new_duty_cycle_none.
  - exact Hzero.
  - rewrite Exists_exists. split.
    + intros Hpos.
      destruct (Forall_Exists_dec (fun x => atoi x = 0)
                  (fun x => Z.eq_dec (atoi x) 0) texts) as [Hall | Hex].
      * apply Hzero in Hall. lia.
      * apply Exists_exists in Hex. destruct Hex as (x & Hin & Hx).
        exists x. split; [assumption |].
        pose proof (to_uint64_range (atoi x)).
        pose proof (curr_temp_zero x). unfold temp_of. lia.
    + intros (x & Hin & Hx).
      destruct (Z.eq_dec ceiling 0) as [H0 | H0]; [| lia].
      apply Hzero in H0. rewrite Forall_forall in H0. apply H0 in Hin.
      apply curr_temp_zero in Hin. unfold temp_of in Hx. lia.
  - rewrite <- Hfirst. split; [now intros -> |].
    intros Hf. cbn [adaptive_loop] in *.
    pose proof (tick_read w timeout 0 s) as Ht. cbv zeta in Ht.
    destruct (new_duty_cycle _ _) eqn:E.
    + apply Hfirst in Hf. apply curr_temp_zero in Hf.
      rewrite Hf in E. vm_compute in E. discriminate.
    + now rewrite (bind_halt _ _ _ _ Ht).
  - exact Hfirst.
  - reflexivity.
Qed.

(** ** The duty cycle of a percentage *)

(** Between -4294 and 4294 the multiplication by 500000 stays within [int]:
    from 0 to 100 the duty cycle is the linear image of the percentage and
    is accepted, outside it is rejected. *)
Lemma duty_of_percent_in_reach (p : Z) :
  -4294 <= p <= 4294 ->
  (0 <= p -> duty_of_percent p = p * PWM_PERIOD / 100)
  /\ duty_rejected (duty_of_percent p) = negb ((0 <=? p) && (p <=? 100)).
Proof.
  intros Hp.
  assert (Hd : p * PWM_PERIOD / 100 = p * 500000).
  { unfold PWM_PERIOD. replace (p * 50000000) with (p * 500000 * 100) by lia.
    now apply Z.div_mul. }
  assert (Hi : to_int (p * 500000) = p * 500000).
  { apply to_int_small. unfold INT_MIN, INT_MAX. lia. }
  unfold duty_of_percent. rewrite Hi, Hd. split.
  - intros H0. apply to_uint64_small. lia.
  - unfold duty_rejected, PWM_PERIOD.
    destruct (Z.leb_spec 0 p) as [H0 | H0]; cbn [andb negb].
    + rewrite to_uint64_small by lia.
      destruct (Z.ltb_spec (p * 500000) 0); [lia |]. cbn [orb].
      destruct (Z.leb_spec p 100), (Z.gtb_spec (p * 500000) 50000000);
        cbn [negb]; lia || reflexivity.
    + rewrite to_uint64_negative by lia.
      apply orb_true_iff. right. apply Z.gtb_lt. lia.
Qed.

(** Where the product of the source fits in [int], the duty cycle is the
    source's expression, product then quotient. *)
Lemma duty_of_percent_without_overflow (p : Z) :
  int_mul_overflows p PWM_PERIOD = false ->
  duty_of_percent p = to_uint64 (int_div (p * PWM_PERIOD) 100).
Proof.
  unfold int_mul_overflows, in_int, INT_MIN, INT_MAX, PWM_PERIOD.
  intros H. apply negb_false_iff, andb_true_iff in H.
  destruct H as [Hlo Hhi]. apply Z.leb_le in Hlo, Hhi.
  unfold duty_of_percent, int_div.
  replace (p * 50000000) with (p * 500000 * 100) by lia.
  rewrite Z.quot_mul by lia.
  rewrite to_int_small by (unfold INT_MIN, INT_MAX; lia). reflexivity.
Qed.

(** ** main *)

Lemma parse_options_silent (items : list getopt_item) :
  forall f t f', parse_options items f = (t, inl f') -> t = [].
Proof.
  induction items as [| item items IH]; intros f t f'; cbn [parse_options].
  - now intros [= <- _].
  - destruct item; try (now apply IH); try discriminate.
    destruct (is_arg_option optopt); discriminate.
Qed.

Lemma config_writes_app (t1 t2 : list event) :
  config_writes (t1 ++ t2) = config_writes t1 ++ config_writes t2.
Proof. apply flat_map_app. Qed.

Ltac split_on_goal :=
  match goal with
  | |- context [match ?x with Some _ => _ | None => _ end] => destruct x eqn:?
  | |- context [match ?x with [] => _ | _ :: _ => _ end] => destruct x eqn:?
  | |- context [if ?b then _ else _] => destruct b eqn:?
  end.

Ltac run_blocks :=
  cbn [bind ret emit halt fail_closed fst snd app is_none andb
       config_writes ioctl_values flat_map existsb is_close orb].

Ltac split_on H :=
  match type of H with
  | context [match ?x with Some _ => _ | None => _ end] => destruct x
  | context [if ?b then _ else _] => destruct b
  end.

(** Once the options are read, the device opened and the stored byte read,
    [main] is its configuration blocks. *)
Lemma main_after_read (w : world) (cl : cmdline) (f : flags)
    (old_value : string) :
  parse_options (options cl) init_flags = ([], inl f) ->
  open_ok w = true ->
  dev_read w = Some old_value ->
  main w cl = (EvOpen :: EvRead :: fst (main_configure w cl f old_value),
               match snd (main_configure w cl f old_value) with
               | inl _ => Exit 0
               | inr o => o
               end).
Proof.
  intros Hparse Hopen Hread. unfold main, run, main_proc.
  rewrite Hparse. cbn [bind emit]. rewrite Hopen. cbn [bind emit].
  rewrite Hread.
  now destruct (main_configure w cl f old_value) as [t [[] | o]].
Qed.

(** When a range check fails, the run is the open, the read, the
    diagnostic of the first check that fails and the close. *)
Lemma first_range_failure_run
    (w : world) (cl : cmdline) (f : flags) (old_value : string) (m : message) :
  parse_options (options cl) init_flags = ([], inl f) ->
  open_ok w = true ->
  dev_read w = Some old_value ->
  first_range_failure f = Some m ->
  main w cl = ([EvOpen; EvRead; EvStderr m; EvClose], Exit (-1)).
Proof.
  intros Hparse Hopen Hread Hfail.
  rewrite (main_after_read w cl f old_value Hparse Hopen Hread).
  unfold first_range_failure, gpio_check_fails, mode_check_fails,
    duty_check_fails in Hfail.
  unfold main_configure, configure_gpio, configure_pwm, manual_duty_cycle,
    apply_gpio, apply_mode.
  repeat (run_blocks; cbv beta iota in Hfail;
          first [ discriminate Hfail
                | injection Hfail as <-; reflexivity
                | split_on Hfail ]).
Qed.

(** C3 (amended): when the options carry a GPIO outside [2..30], a mode
    outside [0..7], or a duty percentage outside [0..100] (from -4294 to
    4294, where the multiplication of the check stays within [int]), the
    device has been opened and the stored byte read before the range
    diagnostic is printed; nothing is written to the device and no control
    call is made, the descriptor is closed and [main] returns -1. *)
Theorem range_rejection_after_read_before_write
    (w : world) (cl : cmdline) (f : flags) (old_value : string) :
  parse_options (options cl) init_flags = ([], inl f) ->
  open_ok w = true ->
  dev_read w = Some old_value ->
  (exists g, gpio_value f = Some g /\ (atoi g < 2 \/ 30 < atoi g))
  \/ (exists m, pwm_value f = Some m /\ (atoi m < 0 \/ 7 < atoi m))
  \/ (exists d, duty_cycle f = Some d
                /\ (-4294 <= atoi d < 0 \/ 100 < atoi d <= 4294)) ->
  exists m,
    range_message m = true
    /\ main w cl = ([EvOpen; EvRead; EvStderr m; EvClose], Exit (-1))
    /\ config_writes (fst (main w cl)) = []
    /\ ioctl_values (fst (main w cl)) = [].
Proof.
  intros Hparse Hopen Hread Hout.
  assert (Hfail : exists m, first_range_failure f = Some m
                            /\ range_message m = true).
  { unfold first_range_failure.
    destruct (gpio_check_fails f) eqn:Hg; [now eexists |].
    destruct (mode_check_fails f) eqn:Hm; [now eexists |].
    destruct (duty_check_fails f) eqn:Hd; [now eexists |].
    exfalso. destruct Hout as [(g & Eg & Hr) | [(m & Em & Hr) | (d & Ed & Hr)]].
    - unfold gpio_check_fails in Hg. rewrite Eg in Hg.
      apply orb_false_iff in Hg. destruct Hg as [H1 H2].
      apply Z.ltb_ge in H1. rewrite Z.gtb_ltb in H2. apply Z.ltb_ge in H2. lia.
    - unfold mode_check_fails in Hm. rewrite Em in Hm.
      apply orb_false_iff in Hm. destruct Hm as [H1 H2].
      apply Z.ltb_ge in H1. rewrite Z.gtb_ltb in H2. apply Z.ltb_ge in H2. lia.
    - unfold duty_check_fails in Hd. rewrite Ed in Hd.
      destruct (duty_of_percent_in_reach (atoi d)) as [_ Hrej]; [lia |].
      rewrite Hrej in Hd. apply negb_false_iff, andb_true_iff in Hd.
      destruct Hd as [H1 H2]. apply Z.leb_le in H1, H2. lia. }
  destruct Hfail as (m & Hfail & Hm). exists m.
  rewrite (first_range_failure_run w cl f old_value m Hparse Hopen Hread Hfail).
  repeat split. exact Hm.
Qed.

Lemma range_rejection_after_read_before_write_witness :
  let w := calm_world "44" 0 77 [] in
  let cl := only [OptG "18"; OptC "101"] in
  exists m,
    range_message m = true
    /\ main w cl = ([EvOpen; EvRead; EvStderr m; EvClose], Exit (-1))
    /\ config_writes (fst (main w cl)) = []
    /\ ioctl_values (fst (main w cl)) = [].
Proof.
  apply (range_rejection_after_read_before_write
           (calm_world "44" 0 77 []) (only [OptG "18"; OptC "101"])
           (mk_flags false 0 None (Some "18") (Some "101")) "44");
    try reflexivity.
  right. right. exists "101". split; [reflexivity |].
  right. vm_compute. split; [reflexivity | discriminate].
Defined.

(** C3, as stated, fails twice. For [-g 1] the GPIO diagnostic is the third
    event of the run, after the [open] and the [read] of the device node.
    For [-c 8590], far out of range, nothing is rejected: the [int]
    multiplication by 500000 leaves 32704, which is sent. *)
Lemma gpio_rejection_follows_open_and_read :
  main (calm_world "44" 0 77 []) (only [OptG "1"])
  = ([EvOpen; EvRead; EvStderr MsgGpioRange; EvClose], Exit (-1))
  /\ ~ reported_before_device_io
         (fst (main (calm_world "44" 0 77 []) (only [OptG "1"])))
  /\ main (calm_world "44" 0 77 []) (only [OptC "8590"])
     = ([EvOpen; EvRead; EvIoctl 32704], Exit 0).
Proof.
  split; [reflexivity |]. split; [| reflexivity].
  intros H.
  specialize (H [EvOpen; EvRead] MsgGpioRange [EvClose] eq_refl eq_refl).
  inversion H as [| ? ? Hopen _]. discriminate Hopen.
Qed.

(** ** The paths of main that do and do not write the stored byte or close
       the descriptor *)

(** The governor only ever makes control calls on the device. *)
Lemma adaptive_loop_never_writes_config (w : world) (timeout : Z)
    (reads : list (option string)) :
  forall max_temp,
    config_writes (fst (adaptive_loop w timeout max_temp reads)) = [].
Proof.
  induction reads as [| read rest IH]; intros max_temp; cbn [adaptive_loop].
  - reflexivity.
  - destruct read as [tzbuf |]; [| reflexivity].
    pose proof (tick_read w timeout max_temp tzbuf) as Ht. cbv zeta in Ht.
    destruct (new_duty_cycle _ _).
    + rewrite (bind_value _ _ _ _ Ht). cbn [fst].
      rewrite config_writes_app, IH. now destruct (ioctl_ok w).
    + now rewrite (bind_halt _ _ _ _ Ht).
Qed.

Lemma adaptive_never_writes_config (w : world) (timeout : Z) :
  config_writes (fst (adaptive w timeout)) = [].
Proof.
  unfold adaptive. destruct (tz_open_ok w); [| reflexivity].
  pose proof (adaptive_loop_never_writes_config w timeout (tz_reads w) 0) as H.
  destruct (adaptive_loop w timeout 0 (tz_reads w)) as [t [[] | o]];
    exact H.
Qed.

(** On the duty-cycle path the stored byte is never written, whatever the
    other options and whether the percentage is accepted or not. *)
Lemma duty_cycle_path_never_writes_config
    (w : world) (cl : cmdline) (f : flags) (old_value optarg : string) :
  parse_options (options cl) init_flags = ([], inl f) ->
  open_ok w = true ->
  dev_read w = Some old_value ->
  duty_cycle f = Some optarg ->
  config_writes (fst (main w cl)) = [].
Proof.
  intros Hparse Hopen Hread Hduty.
  rewrite (main_after_read w cl f old_value Hparse Hopen Hread).
  unfold main_configure, configure_gpio, configure_pwm, manual_duty_cycle,
    write_duty. rewrite Hduty.
  repeat (run_blocks; first [reflexivity | split_on_goal]).
Qed.

(** On the governor-start path with a PWM pin stored, neither the parent
    nor the child writes the stored byte. *)
Lemma governor_on_pwm_gpio_never_writes_config
    (w : world) (cl : cmdline) (f : flags) (old_value : string) :
  parse_options (options cl) init_flags = ([], inl f) ->
  open_ok w = true ->
  dev_read w = Some old_value ->
  adapt_ms f <> 0 ->
  PWM_GPIOS (gpio_num (set_bytes (atoi old_value))) = true ->
  config_writes (fst (main w cl)) = [].
Proof.
  intros Hparse Hopen Hread Hms Hpin.
  rewrite (main_after_read w cl f old_value Hparse Hopen Hread).
  apply Z.eqb_neq in Hms.
  pose proof (adaptive_never_writes_config w (adapt_ms f)) as Hchild.
  unfold main_configure, configure_gpio, configure_pwm, manual_duty_cycle,
    write_duty, configure_both, start_adaptive.
  rewrite Hms, Hpin, !andb_false_r.
  unfold config_writes in Hchild.
  destruct (adaptive w (adapt_ms f)) as [t [[] | o]]; cbn [fst] in Hchild;
    repeat (run_blocks; rewrite ?app_nil_r, ?Hchild;
            first [reflexivity | split_on_goal]).
Qed.

(** Every return of the followed process other than the accepted
    duty-cycle one, when it is not the forked child, comes after a
    [close] of the descriptor. *)
Lemma other_paths_close_descriptor
    (w : world) (cl : cmdline) (f : flags) :
  parse_options (options cl) init_flags = ([], inl f) ->
  open_ok w = true ->
  fork_pid w <> 0 ->
  duty_cycle f = None \/ duty_check_fails f = true ->
  existsb is_close (fst (main w cl)) = true.
Proof.
  intros Hparse Hopen Hpid Hduty.
  apply Z.eqb_neq in Hpid.
  destruct (dev_read w) as [old_value |] eqn:Hread.
  - rewrite (main_after_read w cl f old_value Hparse Hopen Hread).
    unfold main_configure, configure_gpio, configure_pwm, manual_duty_cycle,
      configure_both, start_adaptive, write_config.
    unfold duty_check_fails in Hduty. rewrite Hpid.
    destruct (duty_cycle f) as [d |].
    + destruct Hduty as [Hd | Hd]; [discriminate |]. rewrite Hd.
      repeat (run_blocks; first [reflexivity | split_on_goal]).
    + repeat (run_blocks; first [reflexivity | split_on_goal]).
  - unfold main, run, main_proc. rewrite Hparse. cbn [bind emit].
    rewrite Hopen. cbn [bind emit]. now rewrite Hread.
Qed.

(** ** The wire format of the stored byte *)

Lemma byte_cases (P : Z -> bool) :
  forallb P (map Z.of_nat (seq 0 256)) = true ->
  forall b, 0 <= b <= 255 -> P b = true.
Proof.
  intros Hall b Hb. rewrite forallb_forall in Hall. apply Hall.
  apply in_map_iff. exists (Z.to_nat b). split; [lia |].
  apply in_seq. lia.
Qed.

(** What [snprintf] puts in the four-byte buffer reads back as the byte. *)
Lemma atoi_snprintf_d (b : Z) :
  0 <= b <= 255 -> atoi (snprintf_d KBUF_SIZE b) = b.
Proof.
  intros Hb. apply Z.eqb_eq.
  apply (byte_cases (fun b => atoi (snprintf_d KBUF_SIZE b) =? b));
    [vm_compute; reflexivity | assumption].
Qed.

(** With [-g] alone and a valid pin, [main] writes the text of the byte
    the GPIO block built, and nothing else, to the device. *)
Lemma gpio_only_run_writes_update
    (w : world) (cl : cmdline) (f : flags) (old_value optarg : string) :
  parse_options (options cl) init_flags = ([], inl f) ->
  open_ok w = true ->
  dev_read w = Some old_value ->
  gpio_value f = Some optarg ->
  pwm_value f = None -> duty_cycle f = None -> adapt_ms f = 0 ->
  2 <= atoi optarg <= 30 ->
  exists c',
    apply_gpio (set_bytes (atoi old_value)) (set_bytes (config_junk w))
               (atoi optarg) = Some c'
    /\ pwm_mode c' = pwm_mode (set_bytes (atoi old_value))
    /\ config_writes (fst (main w cl)) = [snprintf_d KBUF_SIZE (bytes c')].
Proof.
  intros Hparse Hopen Hread Hg Hp Hd Ha Hrange.
  rewrite (main_after_read w cl f old_value Hparse Hopen Hread).
  unfold main_configure, configure_gpio, configure_pwm, manual_duty_cycle,
    configure_both, start_adaptive, write_config.
  rewrite Hg, Hp, Hd, Ha. change (0 =? 0) with true.
  destruct (apply_gpio _ _ _) as [c' |] eqn:E.
  - exists c'. split; [reflexivity |]. split.
    + unfold apply_gpio in E.
      destruct ((atoi optarg <? 2) || (atoi optarg >? 30)); [discriminate |].
      injection E as <-.
      now rewrite pwm_mode_set_gpio_num, pwm_mode_set_pwm_mode, pwm_mode_fits.
    + run_blocks. now destruct (write_ok w).
  - unfold apply_gpio in E.
    destruct (Z.ltb_spec (atoi optarg) 2); [lia |].
    destruct (Z.gtb_spec (atoi optarg) 30); [lia |]. discriminate.
Qed.

(** With [-p] alone and a valid mode, likewise for the mode block. *)
Lemma mode_only_run_writes_update
    (w : world) (cl : cmdline) (f : flags) (old_value optarg : string) :
  parse_options (options cl) init_flags = ([], inl f) ->
  open_ok w = true ->
  dev_read w = Some old_value ->
  pwm_value f = Some optarg ->
  gpio_value f = None -> duty_cycle f = None -> adapt_ms f = 0 ->
  0 <= atoi optarg <= 7 ->
  exists c',
    apply_mode (set_bytes (atoi old_value)) (set_bytes (config_junk w))
               (atoi optarg) = Some c'
    /\ gpio_num c' = gpio_num (set_bytes (atoi old_value))
    /\ config_writes (fst (main w cl)) = [snprintf_d KBUF_SIZE (bytes c')].
Proof.
  intros Hparse Hopen Hread Hp Hg Hd Ha Hrange.
  rewrite (main_after_read w cl f old_value Hparse Hopen Hread).
  unfold main_configure, configure_gpio, configure_pwm, manual_duty_cycle,
    configure_both, start_adaptive, write_config.
  rewrite Hg, Hp, Hd, Ha. change (0 =? 0) with true. run_blocks.
  destruct (apply_mode _ _ _) as [c' |] eqn:E.
  - exists c'. split; [reflexivity |]. split.
    + unfold apply_mode in E.
      destruct ((atoi optarg <? 0) || (atoi optarg >? 7)); [discriminate |].
      injection E as <-.
      now rewrite gpio_num_set_pwm_mode, gpio_num_set_gpio_num, gpio_num_fits.
    + run_blocks. now destruct (write_ok w).
  - unfold apply_mode in E.
    destruct (Z.ltb_spec (atoi optarg) 0); [lia |].
    destruct (Z.gtb_spec (atoi optarg) 7); [lia |]. discriminate.
Qed.

(** Mode 3 on the stored byte 44 (GPIO 12, mode 1): the driver receives
    108. *)
Example set_mode_3_on_44 :
  main (calm_world "44" 0 77 []) (only [OptP "3"])
  = ([EvOpen; EvRead; EvWrite "108"; EvClose], Exit 0).
Proof. reflexivity. Qed.

(** A reading below zero becomes a large unsigned value: it is the new
    ceiling, the product wraps around and the duty cycle sent is 0. *)
Example tick_on_negative_reading :
  tick (calm_world "18" 0 0 []) 1000 0 (Some "-1000")
  = ([EvTzRead; EvIoctl 0; EvSleep 1000000], inl 18446744073709550616).
Proof. reflexivity. Qed.

(** ** The duty-cycle option *)

(** Where the [int] product of the source does not overflow, the duty
    cycle is the linear image of the percentage: accepted from 0 to 42,
    rejected from -42 to -1. *)
Lemma duty_of_small_percent (p : Z) :
  -42 <= p <= 42 ->
  int_mul_overflows p PWM_PERIOD = false
  /\ (0 <= p ->
      duty_of_percent p = p * PWM_PERIOD / 100
      /\ duty_rejected (duty_of_percent p) = false)
  /\ (p < 0 -> duty_rejected (duty_of_percent p) = true).
Proof.
  intros Hp.
  destruct (duty_of_percent_in_reach p) as [Hlin Hrej]; [lia |].
  split; [| split].
  - unfold int_mul_overflows, in_int, INT_MIN, INT_MAX, PWM_PERIOD.
    apply negb_false_iff, andb_true_iff. split; apply Z.leb_le; lia.
  - intros H0. split; [now apply Hlin |]. rewrite Hrej.
    destruct (Z.leb_spec 0 p), (Z.leb_spec p 100); lia || reflexivity.
  - intros Hneg. rewrite Hrej.
    destruct (Z.leb_spec 0 p); lia || reflexivity.
Qed.

(** C1: on the duty-cycle path the percentage maps linearly to
    [percentage * PWM_PERIOD / 100], with [PWM_PERIOD] = 50000000. For a
    percentage from -4294 to 4294, the other options passing their checks,
    [main] sends that value through the control call and returns 0 when the
    percentage is in [0..100], and rejects it with the range diagnostic
    otherwise: -1 and 101 are rejected, 0 sends 0, 100 sends [PWM_PERIOD]
    and 50 sends 25000000. *)
Theorem duty_cycle_percentage_is_linear
    (w : world) (cl : cmdline) (f : flags) (old_value optarg : string) :
  parse_options (options cl) init_flags = ([], inl f) ->
  open_ok w = true ->
  dev_read w = Some old_value ->
  gpio_check_fails f = false ->
  mode_check_fails f = false ->
  duty_cycle f = Some optarg ->
  -4294 <= atoi optarg <= 4294 ->
  PWM_PERIOD = 50000000
  /\ main w cl
     = (if (0 <=? atoi optarg) && (atoi optarg <=? 100)
        then ([EvOpen; EvRead; EvIoctl (atoi optarg * PWM_PERIOD / 100)]
                ++ (if ioctl_ok w then [] else [EvStderr MsgIoctlFailed]),
              Exit 0)
        else ([EvOpen; EvRead; EvStderr MsgDutyRange; EvClose], Exit (-1)))
  /\ 0 * PWM_PERIOD / 100 = 0
  /\ 50 * PWM_PERIOD / 100 = 25000000
  /\ 100 * PWM_PERIOD / 100 = PWM_PERIOD.
Proof.
  intros Hparse Hopen Hread Hg Hm Hd Hrange.
  split; [reflexivity |]. split; [| repeat split].
  destruct (duty_of_percent_in_reach (atoi optarg) Hrange) as [Hlin Hrej].
  destruct ((0 <=? atoi optarg) && (atoi optarg <=? 100)) eqn:Hin.
  - apply andb_true_iff in Hin. destruct Hin as [H0 _]. apply Z.leb_le in H0.
    rewrite (main_after_read w cl f old_value Hparse Hopen Hread).
    unfold gpio_check_fails in Hg. unfold mode_check_fails in Hm.
    unfold main_configure, configure_gpio, configure_pwm, manual_duty_cycle,
      write_duty, apply_gpio, apply_mode.
    cbn [negb] in Hrej. rewrite Hd, Hrej, (Hlin H0).
    destruct (gpio_value f); destruct (pwm_value f);
      rewrite ?Hg, ?Hm; run_blocks; now destruct (ioctl_ok w).
  - apply (first_range_failure_run w cl f old_value MsgDutyRange
             Hparse Hopen Hread).
    unfold first_range_failure, duty_check_fails.
    now rewrite Hg, Hm, Hd, Hrej.
Qed.

Lemma duty_cycle_percentage_is_linear_witness :
  let w := calm_world "44" 0 77 [] in
  let cl := only [OptC "50"] in
  PWM_PERIOD = 50000000
  /\ main w cl
     = (if (0 <=? atoi "50") && (atoi "50" <=? 100)
        then ([EvOpen; EvRead; EvIoctl (atoi "50" * PWM_PERIOD / 100)]
                ++ (if ioctl_ok w then [] else [EvStderr MsgIoctlFailed]),
              Exit 0)
        else ([EvOpen; EvRead; EvStderr MsgDutyRange; EvClose], Exit (-1)))
  /\ 0 * PWM_PERIOD / 100 = 0
  /\ 50 * PWM_PERIOD / 100 = 25000000
  /\ 100 * PWM_PERIOD / 100 = PWM_PERIOD.
Proof.
  apply (duty_cycle_percentage_is_linear
           (calm_world "44" 0 77 []) (only [OptC "50"])
           (mk_flags false 0 None None (Some "50")) "44" "50");
    try reflexivity.
  vm_compute. split; discriminate.
Defined.

(** The boundaries of the percentage, run: -1 and 101 are rejected, 0, 50
    and 100 are sent as 0, 25000000 and the period. *)
Example duty_cycle_boundaries :
  let w := calm_world "44" 0 77 [] in
  main w (only [OptC "-1"])
  = ([EvOpen; EvRead; EvStderr MsgDutyRange; EvClose], Exit (-1))
  /\ main w (only [OptC "0"]) = ([EvOpen; EvRead; EvIoctl 0], Exit 0)
  /\ main w (only [OptC "50"]) = ([EvOpen; EvRead; EvIoctl 25000000], Exit 0)
  /\ main w (only [OptC "100"])
     = ([EvOpen; EvRead; EvIoctl PWM_PERIOD], Exit 0)
  /\ main w (only [OptC "101"])
     = ([EvOpen; EvRead; EvStderr MsgDutyRange; EvClose], Exit (-1)).
Proof. cbv zeta. repeat split. Qed.

(** ** The defects of main, at concrete invocations *)

(** C2 (the code at its failing input): with [-a 1000] alone and GPIO 5
    stored, the diagnostic is printed and no [fork] is made, but [main]
    leaves the [switch], writes the byte of the uninitialised [config] to
    the device and returns 0. *)
Theorem governor_on_plain_gpio_returns_zero
    (junk pid : Z) (temps : list string) :
  let result := main (calm_world "5" junk pid temps) (only [OptA "1000"]) in
  result = ([EvOpen; EvRead; EvStderr MsgNotPwmPin;
             EvWrite (snprintf_d KBUF_SIZE (to_uint8 junk)); EvClose], Exit 0)
  /\ existsb is_fork (fst result) = false
  /\ snd result = Exit 0.
Proof. cbv zeta. repeat split. Qed.

(** C4 (the code at its failing input): on the governor-start path with a
    stored GPIO that is not a PWM pin the device is written, and what is
    written is the uninitialised [config], not the byte that was read:
    with 5 stored and 200 in [config], the driver receives 200. *)
Theorem governor_on_plain_gpio_writes_config
    (junk pid : Z) (temps : list string) :
  config_writes
    (fst (main (calm_world "5" junk pid temps) (only [OptA "1000"])))
  = [snprintf_d KBUF_SIZE (to_uint8 junk)]
  /\ config_writes
       (fst (main (calm_world "5" 200 pid temps) (only [OptA "1000"])))
     = ["200"].
Proof. split; reflexivity. Qed.

(** C9 (the code at its failing input): on the accepted duty-cycle path
    [main] returns 0 right after the control call; the descriptor opened
    at the start is not closed by any event of the run. *)
Theorem duty_cycle_path_leaves_descriptor_open :
  let result := main (calm_world "44" 0 77 []) (only [OptC "10"]) in
  result = ([EvOpen; EvRead; EvIoctl 5000000], Exit 0)
  /\ existsb is_close (fst result) = false.
Proof. cbv zeta. split; reflexivity. Qed.

(** * More of the codec *)

Lemma testbit_255 (n : Z) : 0 <= n -> Z.testbit 255 n = (n <? 8).
Proof.
  intros Hn. change 255 with (Z.ones 8).
  now rewrite Z.testbit_ones_nonneg by lia.
Qed.

Lemma below_256 (x : Z) : 0 <= x -> Z.land x 255 = x -> 0 <= x <= 255.
Proof.
  intros Hx Hland. change 255 with (Z.ones 8) in Hland.
  rewrite Z.land_ones in Hland by lia.
  pose proof (Z.mod_pos_bound x (2 ^ 8) eq_refl) as Hb. cbn in *. lia.
Qed.

(** Whatever is assigned to a field of whatever byte, the result is a
    byte. *)
Lemma set_gpio_num_byte (c : fan_config) (v : Z) :
  0 <= bytes (set_gpio_num c v) <= 255.
Proof.
  unfold set_gpio_num. cbn [bytes]. apply below_256.
  - apply Z.lor_nonneg. split; apply Z.land_nonneg; right; lia.
  - field_bits n. rewrite testbit_255 by lia.
    destruct (Z.leb_spec 5 n), (Z.ltb_spec n 8), (Z.ltb_spec n 5); try lia;
      now rewrite ?andb_true_r, ?andb_false_r.
Qed.

Lemma set_pwm_mode_byte (c : fan_config) (v : Z) :
  0 <= bytes (set_pwm_mode c v) <= 255.
Proof.
  unfold set_pwm_mode. cbn [bytes]. apply below_256.
  - apply Z.lor_nonneg. split.
    + apply Z.land_nonneg. right. lia.
    + apply Z.shiftl_nonneg, Z.land_nonneg. right. lia.
  - field_bits n. rewrite testbit_255 by lia.
    destruct (Z.leb_spec 5 n), (Z.ltb_spec n 8), (Z.ltb_spec n 5); try lia;
      now rewrite ?andb_true_r, ?andb_false_r, ?andb_false_l, ?orb_false_r.
Qed.

(** X1: decoding what was encoded gives the fields back: for a GPIO number
    that fits five bits and a mode that fits three, the byte built by
    assigning both fields is in [0..255] and decodes to the same pair,
    whatever the [union] held before. *)
Theorem decode_encode_fields (scratch : fan_config) (g m : Z) :
  0 <= g <= 31 ->
  0 <= m <= 7 ->
  0 <= encode_into scratch (mk_fields g m) <= 255
  /\ decode (encode_into scratch (mk_fields g m)) = mk_fields g m.
Proof.
  intros Hg Hm.
  unfold encode_into. cbn [fc_gpio fc_mode].
  pose proof (set_pwm_mode_byte (set_gpio_num scratch g) m) as Hbyte.
  split; [exact Hbyte |].
  unfold decode, set_bytes. rewrite to_uint8_small by exact Hbyte.
  replace (mk_config (bytes (set_pwm_mode (set_gpio_num scratch g) m)))
    with (set_pwm_mode (set_gpio_num scratch g) m) by reflexivity.
  rewrite gpio_num_set_pwm_mode, gpio_num_set_gpio_num, pwm_mode_set_pwm_mode.
  now rewrite land_31_small, land_7_small.
Qed.

Lemma decode_encode_fields_witness :
  0 <= encode_into (mk_config 255) (mk_fields 18 3) <= 255
  /\ decode (encode_into (mk_config 255) (mk_fields 18 3)) = mk_fields 18 3.
Proof. apply (decode_encode_fields (mk_config 255) 18 3); lia. Defined.

(** X2: the two field assignments do not disturb each other: in either
    order they give the same byte, a later assignment to a field replaces an
    earlier one, and after both the byte no longer depends on what the
    [union] held. *)
Theorem field_assignments_commute (c c' : fan_config) (g g' m m' : Z) :
  set_gpio_num (set_pwm_mode c m) g = set_pwm_mode (set_gpio_num c g) m
  /\ set_gpio_num (set_gpio_num c g') g = set_gpio_num c g
  /\ set_pwm_mode (set_pwm_mode c m') m = set_pwm_mode c m
  /\ set_pwm_mode (set_gpio_num c g) m = set_pwm_mode (set_gpio_num c' g) m.
Proof.
  unfold set_gpio_num, set_pwm_mode; cbn [bytes].
  repeat split; f_equal; field_bits n;
    destruct (Z.leb_spec 5 n), (Z.ltb_spec n 8), (Z.ltb_spec n 5); try lia;
    rewrite ?andb_true_r, ?andb_false_r, ?andb_false_l, ?andb_true_l,
      ?orb_false_r, ?orb_false_l; reflexivity.
Qed.

(** X3: a field never leaves its width and an assignment keeps the low
    bits of the value: [gpio_num] is always in [0..31] and [pwm_mode] in
    [0..7], assigning [v] to [gpio_num] stores [v mod 32] and assigning it
    to [pwm_mode] stores [v mod 8], and the byte stays in [0..255]. *)
Theorem fields_stay_within_width (c : fan_config) (v : Z) :
  0 <= gpio_num c <= 31
  /\ 0 <= pwm_mode c <= 7
  /\ gpio_num (set_gpio_num c v) = v mod 32
  /\ pwm_mode (set_pwm_mode c v) = v mod 8
  /\ 0 <= bytes (set_gpio_num c v) <= 255
  /\ 0 <= bytes (set_pwm_mode c v) <= 255.
Proof.
  assert (H31 : forall x, Z.land x 31 = x mod 32).
  { intros x. change 31 with (Z.ones 5). now rewrite Z.land_ones by lia. }
  assert (H7 : forall x, Z.land x 7 = x mod 8).
  { intros x. change 7 with (Z.ones 3). now rewrite Z.land_ones by lia. }
  repeat split.
  - unfold gpio_num. rewrite H31. apply Z.mod_pos_bound. lia.
  - unfold gpio_num. rewrite H31.
    pose proof (Z.mod_pos_bound (bytes c) 32 eq_refl). lia.
  - unfold pwm_mode. rewrite H7. apply Z.mod_pos_bound. lia.
  - unfold pwm_mode. rewrite H7.
    pose proof (Z.mod_pos_bound (Z.shiftr (bytes c) 5) 8 eq_refl). lia.
  - rewrite gpio_num_set_gpio_num. apply H31.
  - rewrite pwm_mode_set_pwm_mode. apply H7.
  - apply set_gpio_num_byte.
  - apply set_gpio_num_byte.
  - apply set_pwm_mode_byte.
  - apply set_pwm_mode_byte.
Qed.

(** * More of main *)

Lemma set_both_fields_ignores_scratch (c c' : fan_config) (g m : Z) :
  set_pwm_mode (set_gpio_num c g) m = set_pwm_mode (set_gpio_num c' g) m.
Proof.
  unfold set_gpio_num, set_pwm_mode; cbn [bytes]. f_equal. field_bits n.
  destruct (Z.leb_spec 5 n), (Z.ltb_spec n 8), (Z.ltb_spec n 5); try lia;
    rewrite ?andb_true_r, ?andb_false_r, ?andb_false_l, ?andb_true_l,
      ?orb_false_r, ?orb_false_l; reflexivity.
Qed.

Lemma set_fields_either_order (c : fan_config) (g m : Z) :
  set_gpio_num (set_pwm_mode c m) g = set_pwm_mode (set_gpio_num c g) m.
Proof.
  unfold set_gpio_num, set_pwm_mode; cbn [bytes]. f_equal. field_bits n.
  destruct (Z.leb_spec 5 n), (Z.ltb_spec n 8), (Z.ltb_spec n 5); try lia;
    rewrite ?andb_true_r, ?andb_false_r, ?andb_false_l, ?andb_true_l,
      ?orb_false_r, ?orb_false_l; reflexivity.
Qed.

(** X4: the text [main] writes for a byte fits the four-character buffer
    with its terminator, and the next invocation reads the same byte back
    from it. *)
Theorem stored_text_reads_back (v : Z) :
  let b := bytes (set_bytes v) in
  (String.length (snprintf_d KBUF_SIZE b) <= 3)%nat
  /\ atoi (snprintf_d KBUF_SIZE b) = b
  /\ set_bytes (atoi (snprintf_d KBUF_SIZE b)) = set_bytes v.
Proof.
  cbv zeta. unfold set_bytes. cbn [bytes].
  assert (Hb : 0 <= to_uint8 v <= 255).
  { unfold to_uint8. pose proof (Z.mod_pos_bound v 256 eq_refl). lia. }
  split; [| split].
  - apply Nat.leb_le.
    apply (byte_cases
             (fun b => (String.length (snprintf_d KBUF_SIZE b) <=? 3)%nat));
      [vm_compute; reflexivity | exact Hb].
  - now apply atoi_snprintf_d.
  - rewrite atoi_snprintf_d by exact Hb.
    now rewrite (to_uint8_small (to_uint8 v)).
Qed.

(** X5: [-c] takes precedence. With a percentage from 0 to 42 and the
    other options passing their range checks, [main] sends
    [percentage * 500000] through the control call and returns 0, whether
    the call succeeds or not; the GPIO, the mode, a governor interval or an
    operand given on the same command line are not acted upon. *)
Theorem duty_cycle_option_takes_precedence
    (w : world) (cl : cmdline) (f : flags) (old_value optarg : string) :
  parse_options (options cl) init_flags = ([], inl f) ->
  open_ok w = true ->
  dev_read w = Some old_value ->
  gpio_check_fails f = false ->
  mode_check_fails f = false ->
  duty_cycle f = Some optarg ->
  0 <= atoi optarg <= 42 ->
  main w cl
  = ([EvOpen; EvRead; EvIoctl (atoi optarg * 500000)]
       ++ (if ioctl_ok w then [] else [EvStderr MsgIoctlFailed]),
     Exit 0).
Proof.
  intros Hparse Hopen Hread Hg Hm Hd Hrange.
  rewrite (main_after_read w cl f old_value Hparse Hopen Hread).
  destruct (duty_of_small_percent (atoi optarg)) as (_ & Hlin & _); [lia |].
  destruct Hlin as [Hduty Hacc]; [lia |].
  assert (Hval : duty_of_percent (atoi optarg) = atoi optarg * 500000).
  { rewrite Hduty. unfold PWM_PERIOD.
    replace (atoi optarg * 50000000) with (atoi optarg * 500000 * 100) by lia.
    now apply Z.div_mul. }
  unfold gpio_check_fails in Hg. unfold mode_check_fails in Hm.
  unfold main_configure, configure_gpio, configure_pwm, manual_duty_cycle,
    write_duty, apply_gpio, apply_mode.
  rewrite Hd, Hacc, Hval.
  destruct (gpio_value f); destruct (pwm_value f);
    rewrite ?Hg, ?Hm; run_blocks; now destruct (ioctl_ok w).
Qed.

Lemma duty_cycle_option_takes_precedence_witness :
  let w := calm_world "44" 0 77 [] in
  let cl := mk_cmdline [OptG "18"; OptA "1000"; OptC "10"] ["7"] in
  main w cl
  = ([EvOpen; EvRead; EvIoctl (atoi "10" * 500000)]
       ++ (if ioctl_ok w then [] else [EvStderr MsgIoctlFailed]),
     Exit 0).
Proof.
  apply (duty_cycle_option_takes_precedence
           (calm_world "44" 0 77 [])
           (mk_cmdline [OptG "18"; OptA "1000"; OptC "10"] ["7"])
           (mk_flags false 1000 None (Some "18") (Some "10")) "44" "10");
    try reflexivity.
  vm_compute. split; discriminate.
Defined.

(** X6: with [-g] and [-p] together, both valid, the mode block runs last
    and puts the stored GPIO back: the byte written has the new mode and
    the GPIO that was read, not the one given. *)
Theorem mode_option_restores_stored_gpio
    (w : world) (cl : cmdline) (f : flags) (old_value g m : string) :
  parse_options (options cl) init_flags = ([], inl f) ->
  open_ok w = true ->
  dev_read w = Some old_value ->
  gpio_value f = Some g ->
  pwm_value f = Some m ->
  duty_cycle f = None ->
  adapt_ms f = 0 ->
  2 <= atoi g <= 30 ->
  0 <= atoi m <= 7 ->
  main w cl
  = ([EvOpen; EvRead;
      EvWrite (snprintf_d KBUF_SIZE
                 (encode (mk_fields (gpio_num (set_bytes (atoi old_value)))
                                    (atoi m))))]
       ++ (if write_ok w then [] else [EvStderr MsgWriteFailed])
       ++ [EvClose],
     Exit 0).
Proof.
  intros Hparse Hopen Hread Hg Hm Hd Ha Hgr Hmr.
  rewrite (main_after_read w cl f old_value Hparse Hopen Hread).
  unfold main_configure, configure_gpio, configure_pwm, manual_duty_cycle,
    configure_both, start_adaptive, write_config, apply_gpio, apply_mode.
  rewrite Hg, Hm, Hd, Ha. change (0 =? 0) with true.
  destruct (Z.ltb_spec (atoi g) 2); [lia |].
  destruct (Z.gtb_spec (atoi g) 30); [lia |].
  destruct (Z.ltb_spec (atoi m) 0); [lia |].
  destruct (Z.gtb_spec (atoi m) 7); [lia |].
  run_blocks. rewrite (to_uint8_small (atoi m)) by lia.
  unfold encode, encode_into. cbn [fc_gpio fc_mode].
  rewrite (set_both_fields_ignores_scratch _ (mk_config 0)).
  now destruct (write_ok w).
Qed.

Lemma mode_option_restores_stored_gpio_witness :
  let w := calm_world "44" 0 77 [] in
  let cl := only [OptG "18"; OptP "3"] in
  main w cl
  = ([EvOpen; EvRead;
      EvWrite (snprintf_d KBUF_SIZE
                 (encode (mk_fields (gpio_num (set_bytes (atoi "44")))
                                    (atoi "3"))))]
       ++ (if write_ok w then [] else [EvStderr MsgWriteFailed])
       ++ [EvClose],
     Exit 0).
Proof.
  apply (mode_option_restores_stored_gpio
           (calm_world "44" 0 77 []) (only [OptG "18"; OptP "3"])
           (mk_flags false 0 (Some "3") (Some "18") None) "44" "18" "3");
    try reflexivity; vm_compute; split; discriminate.
Defined.

(** X7: without [-g], [-p], [-c] and [-a], the first operand gives the
    whole byte: its first three characters are parsed and reduced modulo
    256; a result of 0 is refused, a missing operand too, and otherwise the
    byte is written as text, the stored byte playing no part. A failed
    write is reported and the status is still 0. *)
Theorem operand_sets_whole_byte
    (w : world) (cl : cmdline) (f : flags) (old_value : string) :
  parse_options (options cl) init_flags = ([], inl f) ->
  open_ok w = true ->
  dev_read w = Some old_value ->
  gpio_value f = None ->
  pwm_value f = None ->
  duty_cycle f = None ->
  adapt_ms f = 0 ->
  main w cl
  = match operands cl with
    | [] => ([EvOpen; EvRead; EvStderr MsgNoValue; EvClose], Exit (-1))
    | arg :: _ =>
        let b := to_uint8 (atoi (strncpy 3 arg)) in
        if b =? 0
        then ([EvOpen; EvRead; EvStderr MsgBadValue; EvClose], Exit (-1))
        else ([EvOpen; EvRead; EvWrite (snprintf_d KBUF_SIZE b)]
                ++ (if write_ok w then [] else [EvStderr MsgWriteFailed])
                ++ [EvClose],
              Exit 0)
    end.
Proof.
  intros Hparse Hopen Hread Hg Hm Hd Ha.
  rewrite (main_after_read w cl f old_value Hparse Hopen Hread).
  unfold main_configure, configure_gpio, configure_pwm, manual_duty_cycle,
    configure_both, start_adaptive, write_config.
  rewrite Hg, Hm, Hd, Ha. change (0 =? 0) with true. run_blocks.
  destruct (operands cl) as [| arg rest]; [reflexivity |].
  change (KBUF_SIZE - 1)%nat with 3%nat. unfold set_bytes. cbn [bytes].
  rewrite andb_true_r.
  destruct (to_uint8 (atoi (strncpy 3 arg)) =? 0); [reflexivity |].
  run_blocks. now destruct (write_ok w).
Qed.

Lemma operand_sets_whole_byte_witness :
  let w := calm_world "44" 0 77 [] in
  let cl := mk_cmdline [OptD] ["1084"] in
  main w cl
  = match operands cl with
    | [] => ([EvOpen; EvRead; EvStderr MsgNoValue; EvClose], Exit (-1))
    | arg :: _ =>
        let b := to_uint8 (atoi (strncpy 3 arg)) in
        if b =? 0
        then ([EvOpen; EvRead; EvStderr MsgBadValue; EvClose], Exit (-1))
        else ([EvOpen; EvRead; EvWrite (snprintf_d KBUF_SIZE b)]
                ++ (if write_ok w then [] else [EvStderr MsgWriteFailed])
                ++ [EvClose],
              Exit 0)
    end.
Proof.
  apply (operand_sets_whole_byte
           (calm_world "44" 0 77 []) (mk_cmdline [OptD] ["1084"])
           (mk_flags true 0 None None None) "44");
    reflexivity.
Defined.

(** X8: a governor start on a stored PWM pin, seen from the process that
    called [fork]: when [fork] fails the failure is reported, the descriptor
    closed and the status -1; otherwise the child's pid is printed, the
    descriptor closed and the status 0. Nothing is written to the device,
    even when [-g] or [-p] came with [-a]. *)
Theorem governor_start_in_parent
    (w : world) (cl : cmdline) (f : flags) (old_value : string) :
  parse_options (options cl) init_flags = ([], inl f) ->
  open_ok w = true ->
  dev_read w = Some old_value ->
  gpio_check_fails f = false ->
  mode_check_fails f = false ->
  duty_cycle f = None ->
  adapt_ms f <> 0 ->
  PWM_GPIOS (gpio_num (set_bytes (atoi old_value))) = true ->
  fork_pid w <> 0 ->
  main w cl
  = (EvOpen :: EvRead :: EvFork
       :: (if fork_pid w <? 0
           then [EvStderr MsgForkFailed; EvClose]
           else [EvStdoutPid (fork_pid w); EvClose]),
     if fork_pid w <? 0 then Exit (-1) else Exit 0).
Proof.
  intros Hparse Hopen Hread Hg Hm Hd Ha Hpin Hpid.
  rewrite (main_after_read w cl f old_value Hparse Hopen Hread).
  apply Z.eqb_neq in Ha. apply Z.eqb_neq in Hpid.
  unfold gpio_check_fails in Hg. unfold mode_check_fails in Hm.
  unfold main_configure, configure_gpio, configure_pwm, manual_duty_cycle,
    configure_both, start_adaptive, apply_gpio, apply_mode.
  rewrite Hd, Ha, Hpin, Hpid, !andb_false_r.
  destruct (gpio_value f); destruct (pwm_value f);
    rewrite ?Hg, ?Hm; run_blocks; now destruct (fork_pid w <? 0).
Qed.

Lemma governor_start_in_parent_witness :
  let w := calm_world "18" 0 77 [] in
  let cl := only [OptA "1000"; OptP "3"] in
  main w cl
  = (EvOpen :: EvRead :: EvFork
       :: (if fork_pid w <? 0
           then [EvStderr MsgForkFailed; EvClose]
           else [EvStdoutPid (fork_pid w); EvClose]),
     if fork_pid w <? 0 then Exit (-1) else Exit 0).
Proof.
  apply (governor_start_in_parent
           (calm_world "18" 0 77 []) (only [OptA "1000"; OptP "3"])
           (mk_flags false 1000 (Some "3") None None) "18");
    try reflexivity; discriminate.
Defined.

(** X9: the PWM-pin test of a governor start looks at the pin read from the
    driver, not at the one given with [-g]. When the stored pin is not a
    PWM pin, no [fork] is made whatever the new pin is; the byte with the
    new pin and the stored mode is written and the status is 0. *)
Theorem governor_check_reads_stored_pin
    (w : world) (cl : cmdline) (f : flags) (old_value g : string) :
  parse_options (options cl) init_flags = ([], inl f) ->
  open_ok w = true ->
  dev_read w = Some old_value ->
  gpio_value f = Some g ->
  pwm_value f = None ->
  duty_cycle f = None ->
  adapt_ms f <> 0 ->
  2 <= atoi g <= 30 ->
  PWM_GPIOS (gpio_num (set_bytes (atoi old_value))) = false ->
  main w cl
  = ([EvOpen; EvRead; EvStderr MsgNotPwmPin;
      EvWrite (snprintf_d KBUF_SIZE
                 (encode (mk_fields (atoi g)
                                    (pwm_mode (set_bytes (atoi old_value))))))]
       ++ (if write_ok w then [] else [EvStderr MsgWriteFailed])
       ++ [EvClose],
     Exit 0).
Proof.
  intros Hparse Hopen Hread Hg Hm Hd Ha Hgr Hpin.
  rewrite (main_after_read w cl f old_value Hparse Hopen Hread).
  apply Z.eqb_neq in Ha.
  unfold main_configure, configure_gpio, configure_pwm, manual_duty_cycle,
    configure_both, start_adaptive, write_config, apply_gpio.
  rewrite Hg, Hm, Hd, Ha, Hpin.
  destruct (Z.ltb_spec (atoi g) 2); [lia |].
  destruct (Z.gtb_spec (atoi g) 30); [lia |].
  run_blocks. rewrite (to_uint8_small (atoi g)) by lia.
  unfold encode, encode_into. cbn [fc_gpio fc_mode].
  rewrite set_fields_either_order.
  rewrite (set_both_fields_ignores_scratch _ (mk_config 0)).
  now destruct (write_ok w).
Qed.

Lemma governor_check_reads_stored_pin_witness :
  let w := calm_world "37" 0 77 [] in
  let cl := only [OptG "18"; OptA "1000"] in
  main w cl
  = ([EvOpen; EvRead; EvStderr MsgNotPwmPin;
      EvWrite (snprintf_d KBUF_SIZE
                 (encode (mk_fields (atoi "18")
                                    (pwm_mode (set_bytes (atoi "37"))))))]
       ++ (if write_ok w then [] else [EvStderr MsgWriteFailed])
       ++ [EvClose],
     Exit 0).
Proof.
  apply (governor_check_reads_stored_pin
           (calm_world "37" 0 77 []) (only [OptG "18"; OptA "1000"])
           (mk_flags false 1000 None (Some "18") None) "37" "18");
    try reflexivity; try discriminate.
  vm_compute. split; discriminate.
Defined.

(** * More of the governor *)

Lemma new_duty_cycle_bounded (curr_temp max_temp d : Z) :
  0 <= curr_temp <= max_temp ->
  new_duty_cycle curr_temp max_temp = Some d ->
  0 <= d <= PWM_PERIOD.
Proof.
  unfold new_duty_cycle, u64_div, u64_mul, to_uint64. intros Hc.
  destruct (Z.eqb_spec max_temp 0); [discriminate |]. intros [= <-].
  pose proof (Z.mod_pos_bound (curr_temp * PWM_PERIOD)
                18446744073709551616 eq_refl) as Hmod.
  assert (Hle : (curr_temp * PWM_PERIOD) mod 18446744073709551616
                <= curr_temp * PWM_PERIOD).
  { apply Z.mod_le; unfold PWM_PERIOD; lia. }
  split.
  - apply Z.div_pos; lia.
  - apply Z.div_le_upper_bound; [lia |]. unfold PWM_PERIOD in *. nia.
Qed.

Lemma duties_bounded_from (w : world) (timeout : Z)
    (reads : list (option string)) :
  forall max_temp,
    0 <= max_temp ->
    Forall (fun d => 0 <= d <= PWM_PERIOD)
           (ioctl_values (fst (adaptive_loop w timeout max_temp reads))).
Proof.
  induction reads as [| read rest IH]; intros max_temp Hm;
    cbn [adaptive_loop].
  - constructor.
  - destruct read as [tzbuf |]; [| constructor].
    pose proof (tick_read w timeout max_temp tzbuf) as Ht. cbv zeta in Ht.
    pose proof (to_uint64_range (atoi tzbuf)) as Hcurr.
    destruct (new_duty_cycle _ _) as [d |] eqn:E.
    + rewrite (bind_value _ _ _ _ Ht). cbn [fst].
      rewrite ioctl_values_app. apply Forall_app. split.
      * apply new_duty_cycle_bounded in E;
          [| rewrite update_max_is_max; lia].
        destruct (ioctl_ok w); repeat constructor; lia.
      * apply IH. rewrite update_max_is_max. lia.
    + rewrite (bind_halt _ _ _ _ Ht). constructor.
Qed.

(** X10: whatever the sensor reads, texts without digits and readings
    below zero included, every duty cycle the governor sends is between 0
    and the period. *)
Theorem governor_duty_never_exceeds_period
    (w : world) (timeout : Z) (reads : list (option string)) :
  Forall (fun d => 0 <= d <= PWM_PERIOD)
         (ioctl_values (fst (adaptive_loop w timeout 0 reads))).
Proof. apply duties_bounded_from. lia. Qed.

Lemma without_ioctl_reports_app (t1 t2 : list event) :
  without_ioctl_reports (t1 ++ t2)
  = without_ioctl_reports t1 ++ without_ioctl_reports t2.
Proof. apply filter_app. Qed.

Lemma with_ioctl_reports_app (t1 t2 : list event) :
  with_ioctl_reports (t1 ++ t2) = with_ioctl_reports t1 ++ with_ioctl_reports t2.
Proof. apply flat_map_app. Qed.

(** When the control calls succeed the loop reports none; when they fail
    its trace is the one without reports, with a report after each call. *)
Lemma adaptive_loop_reports (w : world) (timeout : Z)
    (reads : list (option string)) :
  forall max_temp,
    fst (adaptive_loop w timeout max_temp reads)
    = if ioctl_ok w
      then without_ioctl_reports (fst (adaptive_loop w timeout max_temp reads))
      else with_ioctl_reports
             (without_ioctl_reports
                (fst (adaptive_loop w timeout max_temp reads))).
Proof.
  induction reads as [| read rest IH]; intros max_temp; cbn [adaptive_loop].
  - now destruct (ioctl_ok w).
  - destruct read as [tzbuf |]; [| now destruct (ioctl_ok w)].
    pose proof (tick_read w timeout max_temp tzbuf) as Ht. cbv zeta in Ht.
    destruct (new_duty_cycle _ _) as [d |].
    + rewrite (bind_value _ _ _ _ Ht). cbn [fst].
      specialize (IH (update_max max_temp (to_uint64 (atoi tzbuf)))).
      rewrite without_ioctl_reports_app.
      destruct (ioctl_ok w).
      * rewrite <- IH. reflexivity.
      * rewrite with_ioctl_reports_app, <- IH. reflexivity.
    + rewrite (bind_halt _ _ _ _ Ht). now destruct (ioctl_ok w).
Qed.

(** X11: the governor follows the sensor only: the duty cycles it sends,
    its ceilings and the way it ends are the same whether the control calls
    succeed or fail and whatever the interval. A failed call is reported
    once, right after the call, and the loop goes on: the trace of a loop
    whose calls fail is its trace without the reports, with one report put
    after each control call; when the calls succeed there is no report. *)
Theorem governor_follows_sensor_only
    (w1 w2 : world) (timeout1 timeout2 : Z) (reads : list (option string)) :
  forall max_temp,
    ioctl_values (fst (adaptive_loop w1 timeout1 max_temp reads))
    = ioctl_values (fst (adaptive_loop w2 timeout2 max_temp reads))
    /\ snd (adaptive_loop w1 timeout1 max_temp reads)
       = snd (adaptive_loop w2 timeout2 max_temp reads)
    /\ ceilings w1 timeout1 max_temp reads
       = ceilings w2 timeout2 max_temp reads
    /\ fst (adaptive_loop w1 timeout1 max_temp reads)
       = (if ioctl_ok w1
          then without_ioctl_reports
                 (fst (adaptive_loop w1 timeout1 max_temp reads))
          else with_ioctl_reports
                 (without_ioctl_reports
                    (fst (adaptive_loop w1 timeout1 max_temp reads)))).
Proof.
  intros max_temp.
  split; [| split; [| split]]; [| | | apply adaptive_loop_reports];
    revert max_temp;
    induction reads as [| read rest IH]; intros max_temp;
    cbn [adaptive_loop ceilings]; try reflexivity;
    (destruct read as [tzbuf |]; [| reflexivity]);
    pose proof (tick_read w1 timeout1 max_temp tzbuf) as H1;
    pose proof (tick_read w2 timeout2 max_temp tzbuf) as H2;
    cbv zeta in H1, H2;
    (destruct (new_duty_cycle _ _) as [d |];
     [ rewrite ?(bind_value _ _ _ _ H1), ?(bind_value _ _ _ _ H2), ?H1, ?H2;
       cbn [fst snd]; rewrite ?ioctl_values_app, ?IH;
       now destruct (ioctl_ok w1), (ioctl_ok w2)
     | rewrite ?(bind_halt _ _ _ _ H1), ?(bind_halt _ _ _ _ H2), ?H1, ?H2;
       reflexivity ]).
Qed.

Lemma last_cons_default {A : Type} (l : list A) :
  forall a d, last (a :: l) d = last l a.
Proof.
  induction l as [| b l IH]; intros a d; [reflexivity |].
  change (last (a :: b :: l) d) with (last (b :: l) d).
  now rewrite !IH.
Qed.

Lemma adaptive_loop_app (w : world) (timeout : Z)
    (pre rest : list (option string)) :
  forall max_temp,
    snd (adaptive_loop w timeout max_temp pre) = inr StillRunning ->
    adaptive_loop w timeout max_temp (pre ++ rest)
    = (fst (adaptive_loop w timeout max_temp pre)
         ++ fst (adaptive_loop w timeout
                   (last (ceilings w timeout max_temp pre) max_temp) rest),
       snd (adaptive_loop w timeout
              (last (ceilings w timeout max_temp pre) max_temp) rest)).
Proof.
  induction pre as [| read pre IH]; intros max_temp Hrun.
  - cbn. now destruct (adaptive_loop w timeout max_temp rest).
  - cbn [app adaptive_loop ceilings] in *.
    destruct (tick w timeout max_temp read) as [t [m' | o]] eqn:Ht.
    + rewrite (bind_value (t, inl m')
                 (fun m => adaptive_loop w timeout m pre) t m' eq_refl)
        in Hrun.
      rewrite (bind_value (t, inl m')
                 (fun m => adaptive_loop w timeout m (pre ++ rest)) t m'
                 eq_refl).
      rewrite (bind_value (t, inl m')
                 (fun m => adaptive_loop w timeout m pre) t m' eq_refl).
      cbn [fst snd] in *.
      rewrite (IH m' Hrun). cbn [fst snd].
      now rewrite app_assoc, last_cons_default.
    + rewrite (bind_halt (t, inr o)
                 (fun m => adaptive_loop w timeout m pre) t o eq_refl)
        in Hrun.
      cbn [snd] in Hrun. injection Hrun as ->.
      destruct read as [tzbuf |].
      * pose proof (tick_read w timeout max_temp tzbuf) as Hr.
        cbv zeta in Hr. rewrite Ht in Hr.
        destruct (new_duty_cycle _ _); discriminate.
      * discriminate.
Qed.

(** X12: a sensor that cannot be opened or read ends the governor. When
    the thermal zone does not open, the device is closed and the status is
    -1 before any sample is taken. When a read fails after iterations that
    went well, the failure is reported, the device and the sensor are
    closed, the status is -1, and no later read is made. *)
Theorem sensor_failure_ends_governor
    (w : world) (timeout : Z) (pre rest : list (option string)) :
  snd (adaptive_loop w timeout 0 pre) = inr StillRunning ->
  tz_reads w = pre ++ None :: rest ->
  adaptive w timeout
  = if tz_open_ok w
    then ([EvSetsid; EvTzOpen; EvSetName]
            ++ fst (adaptive_loop w timeout 0 pre)
            ++ [EvTzRead; EvStderr MsgTzReadFailed; EvClose; EvTzClose],
          inr (Exit (-1)))
    else ([EvSetsid; EvTzOpen; EvStderr MsgTzOpenFailed; EvClose],
          inr (Exit (-1))).
Proof.
  intros Hrun Hreads. unfold adaptive. rewrite Hreads.
  destruct (tz_open_ok w); [| reflexivity].
  rewrite (adaptive_loop_app w timeout pre (None :: rest) 0 Hrun).
  reflexivity.
Qed.

Lemma sensor_failure_ends_governor_witness :
  let w := mk_world true (Some "18") true true 0 0 true
             [Some "45000"; Some "47000"; None; Some "46000"] in
  adaptive w 1000
  = if tz_open_ok w
    then ([EvSetsid; EvTzOpen; EvSetName]
            ++ fst (adaptive_loop w 1000 0 [Some "45000"; Some "47000"])
            ++ [EvTzRead; EvStderr MsgTzReadFailed; EvClose; EvTzClose],
          inr (Exit (-1)))
    else ([EvSetsid; EvTzOpen; EvStderr MsgTzOpenFailed; EvClose],
          inr (Exit (-1))).
Proof.
  apply (sensor_failure_ends_governor
           (mk_world true (Some "18") true true 0 0 true
              [Some "45000"; Some "47000"; None; Some "46000"])
           1000 [Some "45000"; Some "47000"] [Some "46000"]);
    reflexivity.
Defined.

(** * Every run of main *)

Lemma parse_options_outcomes (items : list getopt_item) :
  forall f,
    (exists f', parse_options items f = ([], inl f'))
    \/ parse_options items f = ([EvUsage], inr (Exit 0))
    \/ (exists m, parse_options items f = ([EvStderr m], inr (Exit (-1)))).
Proof.
  induction items as [| item items IH]; intros f; cbn [parse_options].
  - left. now exists f.
  - destruct item; try apply IH.
    + right. left. reflexivity.
    + right. right. destruct (is_arg_option optopt); eexists; reflexivity.
Qed.

Lemma main_halted_options (w : world) (cl : cmdline)
    (t : list event) (o : outcome) :
  parse_options (options cl) init_flags = (t, inr o) -> main w cl = (t, o).
Proof. intros H. unfold main, run, main_proc. now rewrite H. Qed.

Lemma main_open_failed (w : world) (cl : cmdline) (f : flags) :
  parse_options (options cl) init_flags = ([], inl f) ->
  open_ok w = false ->
  main w cl = ([EvOpen; EvStderr MsgOpenFailed], Exit (-1)).
Proof.
  intros Hparse Hopen. unfold main, run, main_proc.
  rewrite Hparse. cbn [bind emit]. now rewrite Hopen.
Qed.

Lemma main_read_failed (w : world) (cl : cmdline) (f : flags) :
  parse_options (options cl) init_flags = ([], inl f) ->
  open_ok w = true ->
  dev_read w = None ->
  main w cl = ([EvOpen; EvRead; EvStderr MsgReadFailed; EvClose], Exit (-1)).
Proof.
  intros Hparse Hopen Hread. unfold main, run, main_proc.
  rewrite Hparse. cbn [bind emit]. rewrite Hopen. cbn [bind emit].
  now rewrite Hread.
Qed.

Ltac unfold_blocks :=
  unfold main_configure, configure_gpio, configure_pwm, manual_duty_cycle,
    write_duty, configure_both, start_adaptive, write_config.

Ltac run_all :=
  cbn [bind ret emit halt fail_closed fst snd app is_none andb orb negb
       config_writes ioctl_values flat_map existsb is_close is_stderr
       fd_run fd_step List.length].

(** The start of every proof about all runs: the option loop ends the
    process, or the device does not open, or its read fails, or the
    configuration blocks run. *)
Ltac main_cases w cl f old_value Hparse Hopen Hread :=
  destruct (parse_options_outcomes (options cl) init_flags)
    as [[f Hparse] | [Hparse | [? Hparse]]];
  [ destruct (open_ok w) eqn:Hopen;
    [ destruct (dev_read w) as [old_value |] eqn:Hread;
      [ rewrite (main_after_read w cl f old_value Hparse Hopen Hread)
      | rewrite (main_read_failed w cl f Hparse Hopen Hread) ]
    | rewrite (main_open_failed w cl f Hparse Hopen) ]
  | rewrite (main_halted_options w cl _ _ Hparse)
  | rewrite (main_halted_options w cl _ _ Hparse) ].

(** X13: the two channels exclude each other: in every run, of the parent
    or of the forked child, the stored byte is written at most once, and a
    process that writes it makes no control call, and the reverse. *)
Theorem config_and_duty_channels_exclude (w : world) (cl : cmdline) :
  (List.length (config_writes (fst (main w cl))) <= 1)%nat
  /\ (config_writes (fst (main w cl)) = []
      \/ ioctl_values (fst (main w cl)) = []).
Proof.
  main_cases w cl f old_value Hparse Hopen Hread;
    try (run_all; split; [lia | now left]).
  pose proof (adaptive_never_writes_config w (adapt_ms f)) as Hchild.
  unfold config_writes in Hchild.
  unfold_blocks.
  destruct (adaptive w (adapt_ms f)) as [t [[] | o]]; cbn [fst] in Hchild;
    repeat (run_all; rewrite ?app_nil_r, ?Hchild;
            first [ split; [cbn [List.length]; lia
                                   | first [now left | now right]]
                  | split_on_goal ]).
Qed.

Lemma fd_run_app (t1 t2 : list event) :
  forall st,
    fd_run st (t1 ++ t2)
    = match fd_run st t1 with Some st' => fd_run st' t2 | None => None end.
Proof.
  induction t1 as [| e t1 IH]; intros st; cbn [app fd_run]; [reflexivity |].
  destruct (fd_step st e); [apply IH | reflexivity].
Qed.

(** From a descriptor that was read, the governor's loop keeps it usable
    or closes it for good. *)
Lemma adaptive_loop_keeps_protocol (w : world) (timeout : Z)
    (reads : list (option string)) :
  forall max_temp,
    fd_run FdReady (fst (adaptive_loop w timeout max_temp reads))
    = Some FdReady
    \/ fd_run FdReady (fst (adaptive_loop w timeout max_temp reads))
       = Some FdClosed.
Proof.
  induction reads as [| read rest IH]; intros max_temp; cbn [adaptive_loop].
  - now left.
  - destruct read as [tzbuf |]; [| now right].
    pose proof (tick_read w timeout max_temp tzbuf) as Ht. cbv zeta in Ht.
    destruct (new_duty_cycle _ _).
    + rewrite (bind_value _ _ _ _ Ht). cbn [fst]. rewrite fd_run_app.
      replace (fd_run FdReady _) with (Some FdReady)
        by (now destruct (ioctl_ok w)).
      apply IH.
    + rewrite (bind_halt _ _ _ _ Ht). now left.
Qed.

Lemma adaptive_keeps_protocol (w : world) (timeout : Z) :
  fd_run FdReady (fst (adaptive w timeout)) <> None.
Proof.
  unfold adaptive. destruct (tz_open_ok w); [| discriminate].
  pose proof (adaptive_loop_keeps_protocol w timeout (tz_reads w) 0) as H.
  destruct (adaptive_loop w timeout 0 (tz_reads w)) as [t [[] | o]];
    cbn in *; destruct H as [-> | ->]; discriminate.
Qed.

(** X14: every run of [main], of the parent or of the forked child, uses
    the descriptor of the device in order: it is opened at most once, the
    stored byte is read once, right after, and before any write or control
    call, the descriptor is closed at most once and nothing is done with it
    after the [close]. *)
Theorem descriptor_used_in_order (w : world) (cl : cmdline) :
  fd_run FdNone (fst (main w cl)) <> None.
Proof.
  main_cases w cl f old_value Hparse Hopen Hread;
    try (run_all; discriminate).
  pose proof (adaptive_keeps_protocol w (adapt_ms f)) as Hchild.
  unfold_blocks.
  destruct (adaptive w (adapt_ms f)) as [t [[] | o]]; cbn [fst] in Hchild;
    repeat (run_all; rewrite ?app_nil_r;
            first [ discriminate | exact Hchild | split_on_goal ]).
Qed.

Lemma adaptive_loop_exit_status (w : world) (timeout : Z)
    (reads : list (option string)) :
  forall max_temp status,
    snd (adaptive_loop w timeout max_temp reads) = inr (Exit status) ->
    status = -1
    /\ existsb is_stderr (fst (adaptive_loop w timeout max_temp reads)) = true.
Proof.
  induction reads as [| read rest IH]; intros max_temp status;
    cbn [adaptive_loop].
  - discriminate.
  - destruct read as [tzbuf |].
    + pose proof (tick_read w timeout max_temp tzbuf) as Ht. cbv zeta in Ht.
      destruct (new_duty_cycle _ _).
      * rewrite (bind_value _ _ _ _ Ht). cbn [fst snd]. intros H.
        apply IH in H. destruct H as [-> H]. split; [reflexivity |].
        rewrite existsb_app, H. apply orb_true_r.
      * rewrite (bind_halt _ _ _ _ Ht). discriminate.
    + intros [= <-]. now split.
Qed.

(** The loop has no way out but the end of the process. *)
Lemma adaptive_loop_never_returns (w : world) (timeout : Z)
    (reads : list (option string)) :
  forall max_temp,
    exists o, snd (adaptive_loop w timeout max_temp reads) = inr o.
Proof.
  induction reads as [| read rest IH]; intros max_temp; cbn [adaptive_loop].
  - now eexists.
  - destruct read as [tzbuf |]; [| now eexists].
    pose proof (tick_read w timeout max_temp tzbuf) as Ht. cbv zeta in Ht.
    destruct (new_duty_cycle _ _).
    + rewrite (bind_value _ _ _ _ Ht). cbn [snd]. apply IH.
    + rewrite (bind_halt _ _ _ _ Ht). now eexists.
Qed.

Lemma adaptive_exit_status (w : world) (timeout : Z) :
  match snd (adaptive w timeout) with
  | inl _ => False
  | inr (Exit status) =>
      status = -1 /\ existsb is_stderr (fst (adaptive w timeout)) = true
  | inr _ => True
  end.
Proof.
  unfold adaptive. destruct (tz_open_ok w); [| now split].
  pose proof (adaptive_loop_exit_status w timeout (tz_reads w) 0) as H.
  destruct (adaptive_loop_never_returns w timeout (tz_reads w) 0) as [o Ho].
  destruct (adaptive_loop w timeout 0 (tz_reads w)) as [t r].
  cbn [snd fst] in *. subst r. cbn.
  destruct o; [| exact I | exact I]. now apply H.
Qed.

(** X15: a process that returns from [main] or calls [exit] does so with
    status 0 or -1, and -1 only after a diagnostic on stderr; only the
    forked child can end in the division by zero or be left looping. *)
Theorem failure_status_comes_with_diagnostic (w : world) (cl : cmdline) :
  match snd (main w cl) with
  | Exit status =>
      status = 0
      \/ (status = -1 /\ existsb is_stderr (fst (main w cl)) = true)
  | DivByZero | StillRunning => fork_pid w = 0
  end.
Proof.
  main_cases w cl f old_value Hparse Hopen Hread;
    try (run_all; first [now left | now right]).
  pose proof (adaptive_exit_status w (adapt_ms f)) as Hchild.
  unfold_blocks.
  destruct (adaptive w (adapt_ms f)) as [t [[] | o]]; cbn [fst snd] in Hchild;
    [destruct Hchild |].
  repeat (run_all; rewrite ?app_nil_r;
          first [ now left | now right | split_on_goal
                | destruct o;
                  [ right; split; apply Hchild
                  | now apply Z.eqb_eq | now apply Z.eqb_eq ] ]).
Qed.

(** * The option loop *)

Lemma parse_plain_prefix (pre rest : list getopt_item) :
  forall f,
    forallb is_plain_option pre = true ->
    exists f', parse_options (pre ++ rest) f = parse_options rest f'.
Proof.
  induction pre as [| item pre IH]; intros f Hplain.
  - now exists f.
  - cbn [forallb] in Hplain. apply andb_true_iff in Hplain.
    destruct Hplain as [Hitem Hpre].
    destruct item; try discriminate; cbn [app parse_options];
      now apply IH.
Qed.

(** X16: [-h] and a faulty option end the invocation inside the option
    loop, before the device is opened and before any argument is checked:
    at the first of them, whatever options came before and whatever
    follows, [main] prints the usage and returns 0, or prints its
    diagnostic and returns -1, and does nothing else. Without any of them
    the first thing [main] does is open the device. *)
Theorem help_or_faulty_option_ends_before_device
    (w : world) (pre post : list getopt_item) (ops : list string) :
  forallb is_plain_option pre = true ->
  main w (mk_cmdline (pre ++ OptH :: post) ops) = ([EvUsage], Exit 0)
  /\ (forall optopt,
        main w (mk_cmdline (pre ++ OptQuestion optopt :: post) ops)
        = ([EvStderr (if is_arg_option optopt
                      then MsgMissingArgument else MsgUnknownOption)],
           Exit (-1)))
  /\ (exists t o, main w (mk_cmdline pre ops) = (EvOpen :: t, o)).
Proof.
  intros Hplain. split; [| split].
  - destruct (parse_plain_prefix pre (OptH :: post) init_flags Hplain)
      as [f' Hf].
    apply main_halted_options. cbn [options]. now rewrite Hf.
  - intros optopt.
    destruct (parse_plain_prefix pre (OptQuestion optopt :: post)
                init_flags Hplain) as [f' Hf].
    apply main_halted_options. cbn [options]. rewrite Hf.
    cbn [parse_options]. now destruct (is_arg_option optopt).
  - destruct (parse_plain_prefix pre [] init_flags Hplain) as [f' Hf].
    rewrite app_nil_r in Hf. cbn [parse_options] in Hf.
    set (cl := mk_cmdline pre ops).
    assert (Hparse : parse_options (options cl) init_flags = ([], inl f'))
      by exact Hf.
    destruct (open_ok w) eqn:Hopen.
    + destruct (dev_read w) as [old_value |] eqn:Hread.
      * rewrite (main_after_read w cl f' old_value Hparse Hopen Hread).
        now eexists _, _.
      * rewrite (main_read_failed w cl f' Hparse Hopen Hread).
        now eexists _, _.
    + rewrite (main_open_failed w cl f' Hparse Hopen). now eexists _, _.
Qed.

Lemma help_or_faulty_option_ends_before_device_witness :
  let w := calm_world "44" 0 77 [] in
  let pre := [OptD; OptG "99"] in
  let post := [OptC "50"] in
  main w (mk_cmdline (pre ++ OptH :: post) ["7"]) = ([EvUsage], Exit 0)
  /\ (forall optopt,
        main w (mk_cmdline (pre ++ OptQuestion optopt :: post) ["7"])
        = ([EvStderr (if is_arg_option optopt
                      then MsgMissingArgument else MsgUnknownOption)],
           Exit (-1)))
  /\ (exists t o, main w (mk_cmdline pre ["7"]) = (EvOpen :: t, o)).
Proof.
  apply (help_or_faulty_option_ends_before_device
           (calm_world "44" 0 77 []) [OptD; OptG "99"] [OptC "50"] ["7"]).
  reflexivity.
Defined.

(** * The governor on readings of any sign *)

Lemma loop_with_positive_ceiling (w : world) (timeout : Z)
    (texts : list string) :
  forall max_temp,
    0 < max_temp ->
    snd (adaptive_loop w timeout max_temp (map Some texts)) = inr StillRunning
    /\ ceilings w timeout max_temp (map Some texts)
       = running_max max_temp (map (fun s => to_uint64 (atoi s)) texts)
    /\ List.length
         (ioctl_values
            (fst (adaptive_loop w timeout max_temp (map Some texts))))
       = List.length texts.
Proof.
  induction texts as [| s texts IH]; intros max_temp Hpos.
  - now cbn.
  - pose proof (to_uint64_range (atoi s)) as Hcurr.
    pose proof (tick_read w timeout max_temp s) as Ht. cbv zeta in Ht.
    rewrite update_max_is_max in Ht.
    destruct (new_duty_cycle _ _) as [d |] eqn:E.
    + destruct (IH (Z.max max_temp (to_uint64 (atoi s)))) as (H1 & H2 & H3);
        [lia |].
      cbn [map adaptive_loop ceilings running_max].
      rewrite (bind_value _ _ _ _ Ht), Ht. cbn [fst snd].
      split; [exact H1 |]. split; [now rewrite H2 |].
      rewrite ioctl_values_app, length_app, H3.
      now destruct (ioctl_ok w).
    + apply new_duty_cycle_none in E. lia.
Qed.

(** X17: once its first sample is not 0, the governor goes on for as long
    as the sensor can be read, whatever the later samples are: the loop
    never ends by itself, it makes one control call per sample, and its
    ceiling is the running maximum of the samples as unsigned values. *)
Theorem governor_runs_while_sensor_reads
    (w : world) (timeout : Z) (s0 : string) (texts : list string) :
  atoi s0 <> 0 ->
  let reads := map Some (s0 :: texts) in
  snd (adaptive_loop w timeout 0 reads) = inr StillRunning
  /\ ceilings w timeout 0 reads
     = running_max 0 (map (fun s => to_uint64 (atoi s)) (s0 :: texts))
  /\ List.length (ioctl_values (fst (adaptive_loop w timeout 0 reads)))
     = List.length (s0 :: texts).
Proof.
  intros Hs0 reads. unfold reads.
  pose proof (to_uint64_range (atoi s0)) as Hcurr.
  assert (Hnz : to_uint64 (atoi s0) <> 0) by now rewrite curr_temp_zero.
  pose proof (tick_read w timeout 0 s0) as Ht. cbv zeta in Ht.
  rewrite update_max_is_max in Ht.
  destruct (new_duty_cycle _ _) as [d |] eqn:E.
  - destruct (loop_with_positive_ceiling w timeout texts
                (Z.max 0 (to_uint64 (atoi s0)))) as (H1 & H2 & H3); [lia |].
    cbn [map adaptive_loop ceilings running_max].
    rewrite (bind_value _ _ _ _ Ht), Ht. cbn [fst snd].
    split; [exact H1 |]. split; [now rewrite H2 |].
    rewrite ioctl_values_app, length_app, H3.
    now destruct (ioctl_ok w).
  - apply new_duty_cycle_none in E. lia.
Qed.

Lemma governor_runs_while_sensor_reads_witness :
  let w := calm_world "18" 0 0 [] in
  let reads := map Some ["-1000"; "0"; "n/a"; "45000"] in
  snd (adaptive_loop w 1000 0 reads) = inr StillRunning
  /\ ceilings w 1000 0 reads
     = running_max 0 (map (fun s => to_uint64 (atoi s))
                          ["-1000"; "0"; "n/a"; "45000"])
  /\ List.length (ioctl_values (fst (adaptive_loop w 1000 0 reads)))
     = List.length ["-1000"; "0"; "n/a"; "45000"].
Proof.
  apply (governor_runs_while_sensor_reads (calm_world "18" 0 0 []) 1000
           "-1000" ["0"; "n/a"; "45000"]).
  vm_compute. discriminate.
Defined.
